(** * cuehttp router: handler normalisation, chain composition and dispatch

    A shallow embedding of [include/cuehttp/router.hpp] (class
    [cue::http::router]) together with the properties its specification
    states about registration, middleware chains and dispatch.

    Layout: the context and the handler model, the chain composer
    ([compose]), the registration overloads ([register_impl],
    [register_multiple], [register_with_next], [register_without_next]),
    the facade ([get], [all], [redirect], ...) and the dispatcher
    ([make_routes]); then the lemmas. *)

From stdpp Require Import base strings list gmap.

(** ** The request context *)

(** Modelled from the spec: [cuehttp/context.hpp] is not among the sources.
    The router consumes the context through [method()], [path()],
    [status()], [status(int)] and [redirect(destination)] only; the record
    keeps what those five members read and write.  The status is an
    [unsigned] in [redirect_impl]; the router only stores and compares it. *)
Record context := Context {
  ctx_method : string;
  ctx_path : string;
  ctx_status : N;
  ctx_location : option string
}.

(** [ctx.status(s)] *)
Definition ctx_set_status (s : N) (c : context) : context :=
  {| ctx_method := ctx_method c; ctx_path := ctx_path c;
     ctx_status := s; ctx_location := ctx_location c |}.

(** [ctx.redirect(destination)]: sets the target a later stage writes out. *)
Definition ctx_redirect (destination : string) (c : context) : context :=
  {| ctx_method := ctx_method c; ctx_path := ctx_path c;
     ctx_status := ctx_status c; ctx_location := Some destination |}.

(** Names of user callables, recorded when one is entered.  The record of
    entered callables is ghost state: no handler can read it. *)
Definition label := string.

(** Instance pointers [T*]; [nullptr] is 0, and [if (self)] tests for it. *)
Definition pointer := N.
Definition nullptr : pointer := 0%N.
Definition is_null (self : pointer) : bool := (self =? 0)%N.

(** The object a member function runs on: [self->*func] or [T{}.*func]. *)
Inductive receiver :=
| Instance (self : pointer)
| Temporary.

(** What a run of the modelled code can end in.  [OutOfRange] is
    [handlers[index]] evaluated past the end of the vector (undefined
    behaviour in the source); [Exhausted] is the model running out of
    recursion fuel, which [advance_fuel_enough] rules out for [compose]. *)
Inductive outcome (A : Type) :=
| Finished (a : A)
| OutOfRange
| Exhausted.
Arguments Finished {A} a.
Arguments OutOfRange {A}.
Arguments Exhausted {A}.

Section Model.

(** State the handlers capture besides the context (objects behind instance
    pointers, counters, logs). *)
Variable env : Type.

Record world := World { ctx : context; ext : env }.

Definition on_ctx (f : context -> context) (w : world) : world :=
  {| ctx := f (ctx w); ext := ext w |}.

(** ** Handlers *)

(** The body of a handler [(context&, std::function<void()>) -> void], as
    the sequence of things it does: change the state it can reach, branch
    on it, call [next()], return.  [Mark] is the ghost step recording that
    the user callable of that name has been entered. *)
Inductive body :=
| Return
| Do (f : world -> world) (k : body)
| Inspect (g : world -> body)
| Next (k : body)
| Mark (l : label) (k : body).

(** The arguments a registration call accepts after the path.  A terminal
    callable [(context&) -> void] cannot reach a continuation, so it is a
    state transformer. *)
Inductive handler_arg :=
| Fn_next (l : label) (func : body)
| Fn_plain (l : label) (func : world -> world)
| Mem_next_bound (l : label) (func : receiver -> body) (self : pointer)
| Mem_next (l : label) (func : receiver -> body)
| Mem_plain_bound (l : label) (func : receiver -> world -> world) (self : pointer)
| Mem_plain (l : label) (func : receiver -> world -> world).

(** Local state of one run of a stored handler: what the handlers reach,
    the ghost record of entered callables, and the [index] cursor of
    [compose]. *)
Record frame := Frame { mem : world; trace : list label; index : nat }.

Definition set_mem (f : world -> world) (fr : frame) : frame :=
  {| mem := f (mem fr); trace := trace fr; index := index fr |}.

Definition record_entry (l : label) (fr : frame) : frame :=
  {| mem := mem fr; trace := trace fr ++ [l]; index := index fr |}.

(** [++index]; a [std::size_t], which no run takes near its upper end:
    the cursor stops at most one past the size of the vector. *)
Definition incr_index (fr : frame) : frame :=
  {| mem := mem fr; trace := trace fr; index := S (index fr) |}.

Definition continuation := frame -> outcome frame.

(** Running a handler body against a continuation. *)
Fixpoint exec (b : body) (next : continuation) (fr : frame) : outcome frame :=
  match b with
  | Return => Finished fr
  | Do f k => exec k next (set_mem f fr)
  | Inspect g => exec (g (mem fr)) next fr
  | Next k =>
      match next fr with
      | Finished fr' => exec k next fr'
      | OutOfRange => OutOfRange
      | Exhausted => Exhausted
      end
  | Mark l k => exec k next (record_entry l fr)
  end.

(** [[]() {}] *)
Definition noop : continuation := fun fr => Finished fr.

(** The entries of [handlers_]: [std::function<void(context&)>]. *)
Definition route_fn := world -> outcome (world * list label).

Definition leave (o : outcome frame) : outcome (world * list label) :=
  match o with
  | Finished fr => Finished (mem fr, trace fr)
  | OutOfRange => OutOfRange
  | Exhausted => Exhausted
  end.

(** ** compose *)

(** The closure [next] of [compose]: [if (++index == handlers.size())
    return; handlers[index](ctx, next);].  The closure refers to itself;
    [fuel] bounds the nesting of these calls. *)
Fixpoint advance (handlers : list body) (fuel : nat) (fr : frame) : outcome frame :=
  let fr1 := incr_index fr in
  if index fr1 =? length handlers then Finished fr1
  else
    match handlers !! index fr1 with
    | None => OutOfRange
    | Some h =>
        match fuel with
        | O => Exhausted
        | S fuel' => exec h (advance handlers fuel') fr1
        end
    end.

(** The lambda [handler] built by [compose]. *)
Definition composed (handlers : list body) : route_fn := fun w =>
  match handlers with
  | [] => Finished (w, [])
  | [h] => leave (exec h noop (Frame w [] 0))
  | h0 :: _ => leave (exec h0 (advance handlers (length handlers)) (Frame w [] 0))
  end.

(** ** The router *)

Record router := Router {
  prefix_ : string;
  handlers_ : gmap string route_fn
}.

(** [std::unordered_map::emplace]: inserts only when the key is absent. *)
Definition emplace (key : string) (h : route_fn) (r : router) : router :=
  match handlers_ r !! key with
  | Some _ => r
  | None => {| prefix_ := prefix_ r; handlers_ := <[key := h]> (handlers_ r) |}
  end.

(** [method + "+" + prefix_ + std::string{path}] *)
Definition registration_key (r : router) (method path : string) : string :=
  ((method +:+ "+") +:+ prefix_ r) +:+ path.

Definition compose (r : router) (method path : string) (handlers : list body) : router :=
  emplace (registration_key r method path) (composed handlers) r.

(** ** register_multiple *)

(** The closure pushed for one argument that is followed by more. *)
Definition wrap (a : handler_arg) : body :=
  match a with
  | Fn_next l func => Mark l func
  | Fn_plain l func => Mark l (Do func (Next Return))
  | Mem_next_bound l func self =>
      if is_null self then Return else Mark l (func (Instance self))
  | Mem_next l func => Mark l (func Temporary)
  | Mem_plain_bound l func self =>
      if is_null self then Next Return
      else Mark l (Do (func (Instance self)) (Next Return))
  | Mem_plain l func => Mark l (Do (func Temporary) (Next Return))
  end.

(** The closure pushed for the last argument: the two terminal member
    overloads do not call [next] there. *)
Definition wrap_last (a : handler_arg) : body :=
  match a with
  | Fn_next l func => Mark l func
  | Fn_plain l func => Mark l (Do func (Next Return))
  | Mem_next_bound l func self =>
      if is_null self then Return else Mark l (func (Instance self))
  | Mem_next l func => Mark l (func Temporary)
  | Mem_plain_bound l func self =>
      if is_null self then Return
      else Mark l (Do (func (Instance self)) Return)
  | Mem_plain l func => Mark l (Do (func Temporary) Return)
  end.

Fixpoint register_multiple (handlers : list body) (a : handler_arg)
    (args : list handler_arg) : list body :=
  match args with
  | [] => handlers ++ [wrap_last a]
  | a' :: args' => register_multiple (handlers ++ [wrap a]) a' args'
  end.

(** ** Single-handler registration *)

Definition receiver_of (self : pointer) : receiver :=
  if is_null self then Temporary else Instance self.

(** [register_with_next]: the callable, or the member on [self] (on [T{}]
    when [self] is null), run with a continuation that does nothing. *)
Definition register_with_next (r : router) (method path : string)
    (l : label) (func : body) : router :=
  emplace (registration_key r method path)
          (fun w => leave (exec (Mark l func) noop (Frame w [] 0))) r.

Definition register_with_next_member (r : router) (method path : string)
    (l : label) (func : receiver -> body) (self : pointer) : router :=
  emplace (registration_key r method path)
          (fun w => leave (exec (Mark l (func (receiver_of self))) noop (Frame w [] 0))) r.

(** [register_without_next]: the callable itself is stored. *)
Definition register_without_next (r : router) (method path : string)
    (l : label) (func : world -> world) : router :=
  emplace (registration_key r method path)
          (fun w => Finished (func w, [l])) r.

Definition register_without_next_member (r : router) (method path : string)
    (l : label) (func : receiver -> world -> world) (self : pointer) : router :=
  emplace (registration_key r method path)
          (fun w => Finished (func (receiver_of self) w, [l])) r.

(** [register_impl]: one argument goes to [register_with_next] or
    [register_without_next], several go through [register_multiple] and
    [compose]. *)
Definition register_impl (r : router) (method path : string)
    (a : handler_arg) (args : list handler_arg) : router :=
  match args with
  | [] =>
      match a with
      | Fn_next l func => register_with_next r method path l func
      | Fn_plain l func => register_without_next r method path l func
      | Mem_next_bound l func self => register_with_next_member r method path l func self
      | Mem_next l func => register_with_next_member r method path l func nullptr
      | Mem_plain_bound l func self => register_without_next_member r method path l func self
      | Mem_plain l func => register_without_next_member r method path l func nullptr
      end
  | _ :: _ => compose r method path (register_multiple [] a args)
  end.

(** ** The facade *)

Definition prefix (p : string) (r : router) : router :=
  {| prefix_ := p; handlers_ := handlers_ r |}.

Definition del (r : router) (path : string) a args := register_impl r "DEL" path a args.
Definition get (r : router) (path : string) a args := register_impl r "GET" path a args.
Definition head (r : router) (path : string) a args := register_impl r "HEAD" path a args.
Definition post (r : router) (path : string) a args := register_impl r "POST" path a args.
Definition put (r : router) (path : string) a args := register_impl r "PUT" path a args.

Definition methods : list string := ["DEL"; "GET"; "HEAD"; "POST"; "PUT"].

(** A handler argument as the rounds of [all] find it.  [all] forwards its
    arguments again on every round ([std::forward<Args>(args)...] inside
    the loop): an argument passed as an rvalue is moved into the closure
    stored on the first round, and the following rounds read what that
    move, and every later one, left behind.  [a k] is the argument after
    [k] moves.  An lvalue argument is copied, and moving a function
    pointer or a closure whose captures are pointers or numbers is a copy:
    such an argument is the same on every round ([intact]). *)
Definition forwarded := nat -> handler_arg.

Definition intact (a : handler_arg) : forwarded := fun _ => a.

(** Whether [std::unordered_map::emplace] looks for the key before it
    constructs the value from its arguments, as the standard allows, or
    constructs it first. *)
Variable emplace_looks_up_first : bool.

(** Whether one registration moves from its handler arguments.  The
    closures of [register_with_next] and of [register_multiple] are built
    from them before the key is looked at; [register_without_next] hands
    the callable itself to [emplace], which always constructs the value
    when the key is free. *)
Definition moves_arguments (r : router) (method path : string)
    (a : handler_arg) (args : list handler_arg) : bool :=
  match args, a with
  | [], Fn_plain _ _ =>
      match handlers_ r !! registration_key r method path with
      | Some _ => negb emplace_looks_up_first
      | None => true
      end
  | _, _ => true
  end.

(** One round of the loop of [all]: the router and the number of moves the
    arguments have been through. *)
Definition all_round (path : string) (a : forwarded) (args : list forwarded)
    (st : router * nat) (method : string) : router * nat :=
  let a_now := a st.2 in
  let args_now := (fun f : forwarded => f st.2) <$> args in
  (register_impl st.1 method path a_now args_now,
   if moves_arguments st.1 method path a_now args_now then S st.2 else st.2).

(** [all]: the loop over [methods]. *)
Definition all (r : router) (path : string) (a : forwarded)
    (args : list forwarded) : router :=
  (foldl (all_round path a args) (r, 0) methods).1.

(** The value of an [unsigned] parameter for an integer argument. *)
Definition to_unsigned (z : Z) : N := Z.to_N (z mod 2 ^ 32).

(** A [std::string] that has been moved from holds a valid but unspecified
    value. *)
Variable moved_from : string -> string.

(** The destination argument of [redirect]: a string literal, captured by
    the lambda as a [const char*], which a move copies; or a
    [std::string], captured as one, which a move of the lambda moves. *)
Inductive destination :=
| Chars (s : string)
| Str (s : string).

Definition destination_after (k : nat) (d : destination) : string :=
  match d with
  | Chars s => s
  | Str s => Nat.iter k moved_from s
  end.

(** The lambda of [redirect_impl]; it is not a user callable, the name it
    is recorded under is fixed. *)
Definition redirect_label : label := "redirect".

Definition redirect_handler (destination : string) (status : N) : world -> world :=
  fun w => on_ctx (ctx_set_status status) (on_ctx (ctx_redirect destination) w).

(** [redirect_impl(path, destination, status)]: the lambda is a temporary,
    so every round of [all] moves it. *)
Definition redirect_impl (r : router) (path : string) (d : destination)
    (status : N) : router :=
  all r path
    (fun k => Fn_plain redirect_label (redirect_handler (destination_after k d) status))
    [].

(** [redirect(path, destination)] and [redirect(path, destination, status)];
    the status argument is converted to [unsigned] on the call of
    [redirect_impl]. *)
Definition redirect (r : router) (path : string) (d : destination)
    (status : option Z) : router :=
  match status with
  | None => redirect_impl r path d 301
  | Some z => redirect_impl r path d (to_unsigned z)
  end.

(** ** The dispatcher *)

(** [key{ctx.method()}; key.append("+"); key.append(prefix_);
    key.append(ctx.path())] *)
Definition lookup_key (r : router) (c : context) : string :=
  foldl String.append (ctx_method c) ["+"; prefix_ r; ctx_path c].

Definition make_routes (r : router) : route_fn := fun w =>
  if negb (ctx_status (ctx w) =? 404)%N then Finished (w, [])
  else
    match (handlers_ r !! lookup_key r (ctx w) : option route_fn) with
    | Some h => h w
    | None => Finished (w, [])
    end.

Definition routes (r : router) : route_fn := make_routes r.

(** ** Vocabulary of the statements *)

(** User code that calls its continuation exactly [n] times, whatever the
    state it sees.  User code has no [Mark]: entries are recorded by the
    closures the router builds around it. *)
Inductive continues : nat -> body -> Prop :=
| continues_return : continues 0 Return
| continues_do n f k : continues n k -> continues n (Do f k)
| continues_inspect n g : (forall w, continues n (g w)) -> continues n (Inspect g)
| continues_next n k : continues n k -> continues (S n) (Next k).

(** User code, with any use of the continuation. *)
Inductive user_code : body -> Prop :=
| user_return : user_code Return
| user_do f k : user_code k -> user_code (Do f k)
| user_inspect g : (forall w, user_code (g w)) -> user_code (Inspect g)
| user_next k : user_code k -> user_code (Next k).

(** The state a callable leaves when, started in [w], it returns without
    having called its continuation; [None] when it calls it. *)
Fixpoint run_without_next (b : body) (w : world) : option world :=
  match b with
  | Return => Some w
  | Do f k => run_without_next k (f w)
  | Inspect g => run_without_next (g w) w
  | Next _ => None
  | Mark _ _ => None
  end.

(** The handler vector of a chain of with-continuation callables. *)
Definition chain_of (hs : list (label * body)) : list body :=
  map (fun h => Mark h.1 h.2) hs.

(** The function [register_impl] stores for its arguments. *)
Definition stored_handler (a : handler_arg) (args : list handler_arg) : route_fn :=
  match args with
  | [] =>
      match a with
      | Fn_next l func => fun w => leave (exec (Mark l func) noop (Frame w [] 0))
      | Fn_plain l func => fun w => Finished (func w, [l])
      | Mem_next_bound l func self =>
          fun w => leave (exec (Mark l (func (receiver_of self))) noop (Frame w [] 0))
      | Mem_next l func =>
          fun w => leave (exec (Mark l (func (receiver_of nullptr))) noop (Frame w [] 0))
      | Mem_plain_bound l func self => fun w => Finished (func (receiver_of self) w, [l])
      | Mem_plain l func => fun w => Finished (func (receiver_of nullptr) w, [l])
      end
  | _ :: _ => composed (register_multiple [] a args)
  end.

(** What a terminal-shape argument does inside a chain of several
    arguments: its effect and the entry it records. *)
Definition terminal (a : handler_arg) : bool :=
  match a with
  | Fn_plain _ _ | Mem_plain_bound _ _ _ | Mem_plain _ _ => true
  | _ => false
  end.

Definition effect_of (a : handler_arg) (w : world) : world :=
  match a with
  | Fn_plain _ func => func w
  | Mem_plain_bound _ func self => if is_null self then w else func (Instance self) w
  | Mem_plain _ func => func Temporary w
  | _ => w
  end.

Definition entry_of (a : handler_arg) : list label :=
  match a with
  | Fn_plain l _ | Mem_plain l _ => [l]
  | Mem_plain_bound l _ self => if is_null self then [] else [l]
  | _ => []
  end.

Definition effects (args : list handler_arg) (w : world) : world :=
  foldl (fun w' a => effect_of a w') w args.

Definition entries (args : list handler_arg) : list label :=
  concat (map entry_of args).

(** The vector [register_multiple] builds for an argument list, position
    by position. *)
Fixpoint handlers_of (args : list handler_arg) : list body :=
  match args with
  | [] => []
  | a :: args' =>
      match args' with
      | [] => [wrap_last a]
      | _ :: _ => wrap a :: handlers_of args'
      end
  end.


(** An unhandled or handled request, for the examples. *)
Definition request (method path : string) (status : N) (e : env) : world :=
  {| ctx := {| ctx_method := method; ctx_path := path;
               ctx_status := status; ctx_location := None |};
     ext := e |}.

(** A handler effect for the examples: [ctx.status(s)]. *)
Definition respond (s : N) : world -> world := on_ctx (ctx_set_status s).

(** Code, closures of the router included, that calls its continuation at
    most [n] times on every path. *)
Inductive at_most : nat -> body -> Prop :=
| at_most_return n : at_most n Return
| at_most_do n f k : at_most n k -> at_most n (Do f k)
| at_most_inspect n g : (forall w, at_most n (g w)) -> at_most n (Inspect g)
| at_most_next n k : at_most n k -> at_most (S n) (Next k)
| at_most_mark n l k : at_most n k -> at_most n (Mark l k).

(** A handler argument whose user code calls the continuation at most
    once; the terminal shapes cannot call it at all. *)
Definition continues_at_most_once (a : handler_arg) : Prop :=
  match a with
  | Fn_next _ func => at_most 1 func
  | Mem_next_bound _ func _ | Mem_next _ func => forall rcv, at_most 1 (func rcv)
  | _ => True
  end.

(** The chain read as nesting, without a cursor: every handler runs with
    the rest of the chain as its continuation, the last one with a
    continuation that does nothing. *)
Fixpoint run_nested (handlers : list body) : continuation :=
  match handlers with
  | [] => noop
  | h :: rest => exec h (run_nested rest)
  end.

(** Frames that differ in the cursor only, and runs that both return in
    such frames. *)
Definition same_state (fr fr' : frame) : Prop :=
  mem fr = mem fr' /\ trace fr = trace fr'.

Definition agree (o o' : outcome frame) : Prop :=
  exists fr fr', o = Finished fr /\ o' = Finished fr' /\ same_state fr fr'.

(** The with-continuation arguments of a chain of named callables. *)
Definition callables (hs : list (label * body)) : list handler_arg :=
  map (fun h => Fn_next h.1 h.2) hs.

(** * Properties *)

(** ** The dispatch table *)

Lemma prefix_emplace key h r : prefix_ (emplace key h r) = prefix_ r.
Proof. unfold emplace. by destruct (handlers_ r !! key). Qed.

Lemma lookup_emplace key key' h r :
  handlers_ (emplace key h r) !! key' =
    match handlers_ r !! key' with
    | Some h' => Some h'
    | None => if decide (key = key') then Some h else None
    end.
Proof.
  unfold emplace. destruct (handlers_ r !! key) as [h0|] eqn:Hk; simpl.
  - destruct (handlers_ r !! key') eqn:Hk'; [done|].
    case_decide; [congruence|done].
  - rewrite lookup_insert. case_decide as Heq.
    + subst. by rewrite Hk.
    + by destruct (handlers_ r !! key').
Qed.

Lemma lookup_emplace_absent key h r :
  handlers_ r !! key = None -> handlers_ (emplace key h r) !! key = Some h.
Proof. intros H. rewrite lookup_emplace, H. by rewrite decide_True. Qed.

Lemma lookup_emplace_present key h h0 r :
  handlers_ r !! key = Some h0 -> emplace key h r = r.
Proof. intros H. unfold emplace. by rewrite H. Qed.

Lemma register_impl_emplace r method path a args :
  register_impl r method path a args =
    emplace (registration_key r method path) (stored_handler a args) r.
Proof. destruct args; [destruct a|]; reflexivity. Qed.

Lemma lookup_key_registration r c :
  lookup_key r c = registration_key r (ctx_method c) (ctx_path c).
Proof. reflexivity. Qed.

Lemma make_routes_registered r method path a args w :
  handlers_ r !! registration_key r method path = None ->
  ctx_method (ctx w) = method -> ctx_path (ctx w) = path ->
  ctx_status (ctx w) = 404%N ->
  make_routes (register_impl r method path a args) w = stored_handler a args w.
Proof.
  intros Hnone Hm Hp Hs. rewrite register_impl_emplace.
  unfold make_routes. rewrite Hs. simpl.
  rewrite lookup_key_registration.
  unfold registration_key. rewrite prefix_emplace, Hm, Hp.
  fold (registration_key r method path).
  by rewrite lookup_emplace_absent.
Qed.

(** ** Running handler bodies *)

Lemma exec_next_return next fr : exec (Next Return) next fr = next fr.
Proof. simpl. by destruct (next fr). Qed.

Lemma continues_user_code n b : continues n b -> user_code b.
Proof. induction 1; constructor; auto. Qed.

(** A body that calls [next] exactly [m] times takes the cursor and the
    record of entries through [m] steps of [next]; [Inv i] describes them
    after [i] calls. *)
Lemma exec_continues (Inv : nat -> nat -> list label -> Prop) next m b :
  continues m b ->
  forall j fr,
    (forall i fr0, j <= i < j + m -> Inv i (index fr0) (trace fr0) ->
       exists fr1, next fr0 = Finished fr1 /\ Inv (S i) (index fr1) (trace fr1)) ->
    Inv j (index fr) (trace fr) ->
    exists fr', exec b next fr = Finished fr' /\ Inv (j + m) (index fr') (trace fr').
Proof.
  induction 1 as [|n f k _ IH|n g _ IH|n k _ IH]; intros j fr Hnext Hinv; simpl.
  - exists fr. by rewrite Nat.add_0_r.
  - apply IH; auto.
  - apply IH; auto.
  - destruct (Hnext j fr) as (fr1 & -> & Hinv1); [lia|done|].
    destruct (IH (S j) fr1) as (fr' & Hex & Hinv'); [|done|].
    + intros i fr0 Hi. apply Hnext. lia.
    + exists fr'. split; [done|]. by replace (j + S n) with (S j + n) by lia.
Qed.


(** Code that calls [next] once: what [next] guarantees is what the code
    guarantees. *)
Lemma exec_continues_1 (P Q : nat -> list label -> Prop) next b :
  continues 1 b ->
  (forall fr0, P (index fr0) (trace fr0) ->
     exists fr1, next fr0 = Finished fr1 /\ Q (index fr1) (trace fr1)) ->
  forall fr, P (index fr) (trace fr) ->
    exists fr', exec b next fr = Finished fr' /\ Q (index fr') (trace fr').
Proof.
  intros Hb Hnext fr HP.
  apply (exec_continues (fun j => match j with 0 => P | _ => Q end) next 1 b Hb 0 fr);
    [|done].
  intros i fr0 Hi Hinv. assert (i = 0) as -> by lia. by apply Hnext.
Qed.

(** ** The recursion of [next] is bounded by the length of the chain *)

Lemma exec_bounded next b lo :
  (forall fr, lo <= index fr -> next fr <> Exhausted /\
     forall fr', next fr = Finished fr' -> index fr <= index fr') ->
  forall fr, lo <= index fr -> exec b next fr <> Exhausted /\
     forall fr', exec b next fr = Finished fr' -> index fr <= index fr'.
Proof.
  intros Hnext. induction b as [|f k IH|g IH|k IH|l k IH]; intros fr Hlo; simpl.
  - split; [done|]. by intros fr' [= <-].
  - apply (IH (set_mem f fr)). done.
  - by apply IH.
  - destruct (Hnext fr Hlo) as [Hne Hmono].
    destruct (next fr) as [fr1| |] eqn:Hn; [|done|done].
    specialize (Hmono fr1 eq_refl).
    destruct (IH fr1) as [Hne' Hmono']; [lia|].
    split; [done|]. intros fr' Hfr'. specialize (Hmono' fr' Hfr'). lia.
  - apply (IH (record_entry l fr)). done.
Qed.

Lemma advance_end handlers fuel fr :
  S (index fr) = length handlers ->
  advance handlers fuel fr = Finished (incr_index fr).
Proof.
  intros H. apply Nat.eqb_eq in H.
  destruct fuel; cbn [advance incr_index index]; by rewrite H.
Qed.

Lemma advance_out handlers fuel fr :
  length handlers < S (index fr) ->
  advance handlers fuel fr = OutOfRange.
Proof.
  intros H. assert ((S (index fr) =? length handlers) = false) as Hne
    by (apply Nat.eqb_neq; lia).
  assert (handlers !! S (index fr) = None) as Hnone
    by (apply lookup_ge_None; lia).
  destruct fuel; cbn [advance incr_index index]; by rewrite Hne, Hnone.
Qed.

Lemma advance_enter handlers fuel fr h :
  handlers !! S (index fr) = Some h ->
  advance handlers (S fuel) fr = exec h (advance handlers fuel) (incr_index fr).
Proof.
  intros H. assert ((S (index fr) =? length handlers) = false) as Hne.
  { apply Nat.eqb_neq. apply lookup_lt_Some in H. lia. }
  cbn [advance incr_index index]. by rewrite Hne, H.
Qed.

Lemma advance_enter_0 handlers fr h :
  handlers !! S (index fr) = Some h -> advance handlers 0 fr = Exhausted.
Proof.
  intros H. assert ((S (index fr) =? length handlers) = false) as Hne.
  { apply Nat.eqb_neq. apply lookup_lt_Some in H. lia. }
  cbn [advance incr_index index]. by rewrite Hne, H.
Qed.

Lemma advance_bounded handlers fuel :
  forall fr, length handlers <= S (index fr) + fuel ->
    advance handlers fuel fr <> Exhausted /\
    forall fr', advance handlers fuel fr = Finished fr' -> index fr <= index fr'.
Proof.
  induction fuel as [|fuel IH]; intros fr Hfuel.
  - destruct (decide (S (index fr) = length handlers)) as [Heq|Hne].
    + rewrite advance_end by done. split; [done|]. intros fr' [= <-]. simpl. lia.
    + rewrite advance_out by lia. done.
  - destruct (handlers !! S (index fr)) as [h|] eqn:Hh.
    + rewrite (advance_enter _ _ _ h) by done.
      destruct (exec_bounded (advance handlers fuel) h (S (index fr))) with (fr := incr_index fr)
        as [Hne Hmono]; [|done|].
      * intros fr0 Hfr0. apply IH. lia.
      * split; [done|]. intros fr' Hfr'. specialize (Hmono fr' Hfr'). simpl in Hmono. lia.
    + apply lookup_ge_None in Hh.
      destruct (decide (S (index fr) = length handlers)) as [Heq|Hne].
      * rewrite advance_end by done. split; [done|]. intros fr' [= <-]. simpl. lia.
      * rewrite advance_out by lia. done.
Qed.

(** A composed handler returns, or indexes the vector out of range: the
    fuel [compose] is modelled with never runs out. *)
Lemma advance_fuel_enough handlers w : composed handlers w <> Exhausted.
Proof.
  unfold composed. destruct handlers as [|h0 [|h1 hs]]; [done| |].
  - destruct (exec_bounded noop h0 0) with (fr := Frame w [] 0) as [Hne _].
    + intros fr _. split; [done|]. by intros fr' [= <-].
    + simpl; lia.
    + by destruct (exec h0 noop (Frame w [] 0)).
  - set (hs' := h0 :: h1 :: hs).
    destruct (exec_bounded (advance hs' (length hs')) h0 0) with (fr := Frame w [] 0) as [Hne _].
    + intros fr _. apply advance_bounded. lia.
    + simpl; lia.
    + by destruct (exec h0 (advance hs' (length hs')) (Frame w [] 0)).
Qed.

(** ** Chains of with-continuation callables *)

Lemma chain_of_lookup hs i h :
  hs !! i = Some h -> chain_of hs !! i = Some (Mark h.1 h.2).
Proof. intros H. unfold chain_of. by rewrite list_lookup_fmap, H. Qed.

Lemma length_chain_of hs : length (chain_of hs) = length hs.
Proof. unfold chain_of. by rewrite length_map. Qed.

(** From any cursor position, one call of [next] runs every later handler
    of a chain whose members each continue exactly once, in order, and
    leaves the cursor at the end. *)
Lemma advance_runs_rest hs fuel :
  Forall (fun h => continues 1 h.2) hs ->
  forall fr, S (index fr) <= length hs -> length hs <= S (index fr) + fuel ->
    exists fr', advance (chain_of hs) fuel fr = Finished fr' /\
      index fr' = length hs /\
      trace fr' = trace fr ++ (drop (S (index fr)) hs).*1.
Proof.
  intros Hall. induction fuel as [|fuel IH]; intros fr Hlo Hfuel.
  - assert (S (index fr) = length hs) as Heq by lia.
    rewrite advance_end by (by rewrite length_chain_of).
    eexists; split; [done|]. simpl. split; [done|].
    by rewrite drop_ge, app_nil_r by lia.
  - destruct (decide (S (index fr) = length hs)) as [Heq|Hne].
    { rewrite advance_end by (by rewrite length_chain_of).
      eexists; split; [done|]. simpl. split; [done|].
      by rewrite drop_ge, app_nil_r by lia. }
    destruct (lookup_lt_is_Some_2 hs (S (index fr))) as [[l f] Hh]; [lia|].
    rewrite (advance_enter _ _ _ _ (chain_of_lookup _ _ _ Hh)). cbn [exec fst snd].
    assert (continues 1 f) as Hf.
    { eapply Forall_lookup_1 in Hall; [|exact Hh]. exact Hall. }
    rewrite (drop_S _ _ _ Hh), fmap_cons. cbn [fst].
    apply (exec_continues_1
             (fun i t => i = S (index fr) /\ t = trace fr ++ [l])
             (fun i t => i = length hs /\
                         t = trace fr ++ l :: (drop (S (S (index fr))) hs).*1)
             (advance (chain_of hs) fuel) f Hf); [|done].
    intros fr0 [Hi0 Ht0].
    destruct (IH fr0) as (fr2 & Hadv & Hi2 & Ht2); [lia|lia|].
    exists fr2. split; [done|]. split; [done|].
    by rewrite Ht2, Ht0, Hi0, <- app_assoc.
Qed.

(** A chain of two or more callables that each continue exactly once
    enters them all, first to last, once each. *)
Lemma composed_runs_all hs w :
  Forall (fun h => continues 1 h.2) hs ->
  exists w', composed (chain_of hs) w = Finished (w', hs.*1).
Proof.
  intros Hall. destruct hs as [|[l0 f0] [|h1 hs]].
  - by exists w.
  - apply Forall_cons_1 in Hall as [Hf0 _]. simpl in *.
    destruct (exec_continues_1 (fun i t => t = [l0]) (fun i t => t = [l0])
                noop f0 Hf0) with (fr := record_entry l0 (Frame w [] 0))
      as (fr' & Hex & Ht); [|done|].
    + intros fr0 Ht0. by exists fr0.
    + exists (mem fr'). rewrite Hex. simpl. by rewrite Ht.
  - set (hs' := (l0, f0) :: h1 :: hs) in *.
    assert (continues 1 f0) as Hf0 by (by apply Forall_cons_1 in Hall as [? _]).
    unfold composed. change (chain_of hs') with (Mark l0 f0 :: chain_of (h1 :: hs)) at 1.
    cbn [exec].
    destruct (exec_continues_1
                (fun i t => i = 0 /\ t = [l0])
                (fun i t => i = length hs' /\ t = l0 :: (drop 1 hs').*1)
                (advance (chain_of hs') (length (chain_of hs'))) f0 Hf0)
      with (fr := record_entry l0 (Frame w [] 0))
      as (fr' & Hex & Hi & Ht); [|done|].
    + intros fr0 [Hi0 Ht0].
      destruct (advance_runs_rest hs' (length (chain_of hs')) Hall fr0)
        as (fr2 & Hadv & Hi2 & Ht2).
      * rewrite Hi0. simpl. lia.
      * rewrite length_chain_of. lia.
      * exists fr2. split; [done|]. split; [done|]. by rewrite Ht2, Ht0, Hi0.
    + exists (mem fr'). rewrite Hex. simpl. by rewrite Ht.
Qed.

Lemma exec_run_without_next b next fr w' :
  run_without_next b (mem fr) = Some w' ->
  exec b next fr = Finished (Frame w' (trace fr) (index fr)).
Proof.
  revert fr. induction b as [|f k IH|g IH|k IH|l k IH]; intros fr; simpl; try done.
  - intros [= <-]. by destruct fr.
  - intros Hk. by rewrite (IH (set_mem f fr)).
  - intros Hg. by apply IH.
Qed.

(** A chain whose first callable returns without continuing enters that
    one only, and ends in the state it leaves. *)
Lemma composed_stops_at_first l f rest w w' :
  run_without_next f w = Some w' ->
  composed (Mark l f :: rest) w = Finished (w', [l]).
Proof.
  intros Hf. unfold composed. destruct rest as [|h1 rest]; cbn [exec].
  - by rewrite (exec_run_without_next f _ _ w').
  - by rewrite (exec_run_without_next f _ _ w').
Qed.

(** *** The entries of a run are an initial segment of the chain *)





(** ** The handler vector [register_multiple] builds *)

Lemma register_multiple_app handlers a args :
  register_multiple handlers a args = handlers ++ register_multiple [] a args.
Proof.
  revert handlers a. induction args as [|a' args IH]; intros handlers a; simpl.
  - done.
  - rewrite IH, (IH [wrap a]). by rewrite <- app_assoc.
Qed.

Lemma register_multiple_handlers_of a args :
  register_multiple [] a args = handlers_of (a :: args).
Proof.
  revert a. induction args as [|a' args IH]; intros a.
  - done.
  - cbn [register_multiple]. rewrite register_multiple_app, IH. done.
Qed.

Lemma handlers_of_cons a a' args :
  handlers_of (a :: a' :: args) = wrap a :: handlers_of (a' :: args).
Proof. reflexivity. Qed.

Lemma handlers_of_app_cons pre x post :
  handlers_of (pre ++ x :: post) =
    map wrap pre ++
    (match post with [] => wrap_last x | _ :: _ => wrap x end) :: handlers_of post.
Proof.
  induction pre as [|a pre IH].
  - by destruct post.
  - change ((a :: pre) ++ x :: post) with (a :: (pre ++ x :: post)).
    destruct (pre ++ x :: post) eqn:Heq.
    + by destruct pre.
    + by rewrite handlers_of_cons, IH.
Qed.

Lemma length_handlers_of args : length (handlers_of args) = length args.
Proof.
  induction args as [|a [|a' args] IH]; [done|done|].
  rewrite handlers_of_cons. cbn [length] in *. by rewrite IH.
Qed.

(** *** Terminal-shape arguments fall through *)

Lemma exec_wrap_terminal a next fr :
  terminal a = true ->
  exec (wrap a) next fr =
    next (Frame (effect_of a (mem fr)) (trace fr ++ entry_of a) (index fr)).
Proof.
  intros Ha. destruct a as [| | | |l func self|]; try done; cbn [wrap effect_of entry_of].
  - cbn [exec]. apply exec_next_return.
  - destruct (is_null self).
    + rewrite exec_next_return, app_nil_r. by destruct fr.
    + cbn [exec]. apply exec_next_return.
  - cbn [exec]. apply exec_next_return.
Qed.

(** A run of [next] through a stretch of terminal-shape arguments applies
    their effects in order and goes on behind the stretch. *)
Lemma advance_terminal_segment seg :
  Forall (fun a => terminal a = true) seg ->
  forall front tail fuel fr,
    S (index fr) = length front ->
    advance (front ++ map wrap seg ++ tail) (length seg + fuel) fr =
      advance (front ++ map wrap seg ++ tail) fuel
        (Frame (effects seg (mem fr)) (trace fr ++ entries seg) (index fr + length seg)).
Proof.
  induction 1 as [|a seg Ha _ IH]; intros front tail fuel fr Hfr.
  - simpl. rewrite app_nil_r, Nat.add_0_r. by destruct fr.
  - cbn [length Nat.add map].
    rewrite (advance_enter _ _ _ (wrap a)).
    2:{ rewrite lookup_app_r by lia. by replace (S (index fr) - length front) with 0 by lia. }
    rewrite exec_wrap_terminal by done.
    replace (front ++ (wrap a :: map wrap seg) ++ tail)
      with ((front ++ [wrap a]) ++ map wrap seg ++ tail) by (by rewrite <- app_assoc).
    rewrite IH by (rewrite length_app; simpl; lia).
    f_equal. cbn [mem trace index incr_index]. unfold effects, entries. simpl.
    f_equal; [by rewrite <- app_assoc|lia].
Qed.

Lemma composed_many h0 rest w :
  rest <> [] ->
  composed (h0 :: rest) w =
    leave (exec h0 (advance (h0 :: rest) (S (length rest))) (Frame w [] 0)).
Proof. by destruct rest. Qed.

Lemma exec_wrap_last_terminal a next fr :
  terminal a = true ->
  (forall fr0, index fr0 = index fr ->
     exists i, next fr0 = Finished (Frame (mem fr0) (trace fr0) i)) ->
  exists i, exec (wrap_last a) next fr =
    Finished (Frame (effect_of a (mem fr)) (trace fr ++ entry_of a) i).
Proof.
  intros Ha Hnext.
  destruct a as [|l func| | |l func self|l func]; try done;
    cbn [wrap_last effect_of entry_of].
  - change (exec (Mark l (Do func (Next Return))) next fr)
      with (exec (Next Return) next (set_mem func (record_entry l fr))).
    rewrite exec_next_return.
    destruct (Hnext (set_mem func (record_entry l fr))) as [i ->]; [done|].
    by exists i.
  - destruct (is_null self); cbn [exec].
    + exists (index fr). rewrite app_nil_r. by destruct fr.
    + by exists (index fr).
  - by exists (index fr).
Qed.

(** A handler that returns at once behind a stretch of terminal-shape
    arguments: the stretch runs, nothing behind it does. *)
Lemma composed_stops_behind pre tail w :
  Forall (fun a => terminal a = true) pre ->
  composed (map wrap pre ++ Return :: tail) w = Finished (effects pre w, entries pre).
Proof.
  intros Hpre. destruct pre as [|a0 pre].
  - by destruct tail.
  - apply Forall_cons_1 in Hpre as [Ha0 Hpre].
    cbn [map app]. rewrite composed_many by (by destruct pre).
    rewrite exec_wrap_terminal by done. cbn [mem trace index].
    replace (S (length (map wrap pre ++ Return :: tail)))
      with (length pre + S (S (length tail)))
      by (rewrite length_app, length_map; simpl; lia).
    rewrite (advance_terminal_segment pre Hpre [wrap a0] (Return :: tail)) by done.
    rewrite (advance_enter _ _ _ Return).
    2:{ cbn [index app]. rewrite Nat.add_0_l. simpl.
        rewrite lookup_app_r by (rewrite length_map; lia).
        by rewrite length_map, Nat.sub_diag. }
    by cbn [exec leave mem trace].
Qed.

(** A chain of terminal-shape arguments runs them all, in order. *)
Lemma composed_terminal_chain args w :
  Forall (fun a => terminal a = true) args ->
  composed (handlers_of args) w = Finished (effects args w, entries args).
Proof.
  intros Hall. destruct args as [|a0 args]; [done|].
  destruct (decide (args = [])) as [->|Hne].
  - apply Forall_cons_1 in Hall as [Ha0 _]. cbn [handlers_of composed].
    destruct (exec_wrap_last_terminal a0 noop (Frame w [] 0) Ha0) as [i ->].
    { intros fr0 _. exists (index fr0). by destruct fr0. }
    cbn [leave mem trace]. unfold effects, entries. simpl. by rewrite app_nil_r.
  - destruct (exists_last Hne) as (mid & z & ->).
    apply Forall_cons_1 in Hall as [Ha0 Hall].
    apply Forall_app in Hall as [Hmid Hz]. apply Forall_cons_1 in Hz as [Hz _].
    change (a0 :: mid ++ [z]) with ((a0 :: mid) ++ [z]) at 1.
    rewrite handlers_of_app_cons. cbn [handlers_of map app].
    rewrite composed_many by (by destruct mid).
    rewrite exec_wrap_terminal by done. cbn [mem trace index].
    replace (S (length (map wrap mid ++ [wrap_last z]))) with (length mid + 2)
      by (rewrite length_app, length_map; simpl; lia).
    rewrite (advance_terminal_segment mid Hmid [wrap a0] [wrap_last z]) by done.
    rewrite (advance_enter _ _ _ (wrap_last z)).
    2:{ cbn [index app]. rewrite Nat.add_0_l. simpl.
        rewrite lookup_app_r by (rewrite length_map; lia).
        by rewrite length_map, Nat.sub_diag. }
    match goal with |- context [exec _ ?n ?f] =>
      destruct (exec_wrap_last_terminal z n f Hz) as [i ->] end.
    { intros fr0 Hfr0. exists (S (index fr0)). rewrite advance_end; [done|].
      rewrite Hfr0. simpl. rewrite length_app, length_map. simpl. lia. }
    cbn [leave mem trace incr_index]. unfold effects, entries.
    cbn [foldl map concat]. rewrite foldl_app, map_app, concat_app. simpl.
    by rewrite app_nil_r, <- !app_assoc.
Qed.

Lemma exec_user_code_noop b fr :
  user_code b ->
  exists w', exec b noop fr = Finished (Frame w' (trace fr) (index fr)).
Proof.
  intros Hb. revert fr. induction Hb as [|f k _ IH|g _ IH|k _ IH]; intros fr; simpl.
  - exists (mem fr). by destruct fr.
  - apply (IH (set_mem f fr)).
  - apply IH.
  - apply IH.
Qed.

(** ** Registration under all five verbs *)

Lemma registration_key_prefix r r' method path :
  prefix_ r' = prefix_ r ->
  registration_key r' method path = registration_key r method path.
Proof. unfold registration_key. by intros ->. Qed.

Lemma lookup_register_each a args path ms :
  forall r,
    let r' := foldl (fun r0 method => register_impl r0 method path a args) r ms in
    prefix_ r' = prefix_ r /\
    forall key,
      handlers_ r' !! key =
        match handlers_ r !! key with
        | Some h => Some h
        | None =>
            if decide (key ∈ (fun method => registration_key r method path) <$> ms)
            then Some (stored_handler a args) else None
        end.
Proof.
  induction ms as [|m ms IH]; intros r; cbn [foldl].
  - split; [done|]. intros key. destruct (handlers_ r !! key); [done|].
    rewrite decide_False; [done|]. rewrite fmap_nil. apply not_elem_of_nil.
  - destruct (IH (register_impl r m path a args)) as [Hp Hl].
    rewrite register_impl_emplace in *. rewrite prefix_emplace in Hp.
    split; [done|]. intros key. rewrite Hl, lookup_emplace.
    destruct (handlers_ r !! key) as [h|]; [done|].
    rewrite fmap_cons.
    assert ((fun method => registration_key
               (emplace (registration_key r m path) (stored_handler a args) r) method path)
              <$> ms
            = (fun method => registration_key r method path) <$> ms) as ->.
    { apply list_fmap_ext. intros _ m' _. apply registration_key_prefix, prefix_emplace. }
    set (keys := (fun method => registration_key r method path) <$> ms).
    destruct (decide (registration_key r m path = key)) as [<-|Hne].
    + by rewrite decide_True by (by left).
    + destruct (decide (key ∈ keys)) as [Hin|Hout].
      * by rewrite decide_True by (by right).
      * rewrite decide_False; [done|].
        intros [->|Hin]%elem_of_cons; done.
Qed.

Lemma intact_now (args : list handler_arg) k :
  (fun f : forwarded => f k) <$> (intact <$> args) = args.
Proof.
  rewrite <- list_fmap_compose. rewrite <- (list_fmap_id args) at 2.
  by apply list_fmap_ext.
Qed.

(** For arguments a move leaves intact the rounds of [all] are plain
    registrations of the same arguments. *)
Lemma all_rounds_intact a args path ms :
  forall r k,
    (foldl (all_round path (intact a) (intact <$> args)) (r, k) ms).1
    = foldl (fun r0 method => register_impl r0 method path a args) r ms.
Proof.
  induction ms as [|m ms IH]; intros r k; [done|].
  cbn [foldl]. unfold all_round at 2. cbn [fst snd].
  rewrite intact_now. unfold intact at 1 2. by rewrite IH.
Qed.

Lemma lookup_all r path a args method :
  method ∈ methods ->
  handlers_ r !! registration_key r method path = None ->
  handlers_ (all r path (intact a) (intact <$> args)) !! registration_key r method path
    = Some (stored_handler a args).
Proof.
  intros Hm Hnone. unfold all. rewrite all_rounds_intact.
  destruct (lookup_register_each a args path methods r) as [_ ->].
  rewrite Hnone. rewrite decide_True; [done|].
  apply list_elem_of_fmap. by exists method.
Qed.

(** Whatever the rounds find in the arguments, they keep the prefix and
    every entry that exists. *)
Lemma all_rounds_keep path a args ms :
  forall st,
    prefix_ (foldl (all_round path a args) st ms).1 = prefix_ st.1 /\
    forall key h, handlers_ st.1 !! key = Some h ->
      handlers_ (foldl (all_round path a args) st ms).1 !! key = Some h.
Proof.
  induction ms as [|m ms IH]; intros st; [done|].
  cbn [foldl]. destruct (IH (all_round path a args st m)) as [Hp Hk].
  assert ((all_round path a args st m).1
          = emplace (registration_key st.1 m path)
              (stored_handler (a st.2) ((fun f : forwarded => f st.2) <$> args)) st.1)
    as Hround by apply register_impl_emplace.
  split.
  - by rewrite Hp, Hround, prefix_emplace.
  - intros key h Hh. apply Hk. by rewrite Hround, lookup_emplace, Hh.
Qed.

Lemma prefix_all r path a args : prefix_ (all r path a args) = prefix_ r.
Proof. apply (all_rounds_keep path a args methods (r, 0)). Qed.

(** * The properties of the specification *)




(** C4: a handler registered alone under (GET, path), of any of the six
    shapes, is entered exactly once by the dispatch of an unhandled GET
    context with that path, and the context is left as the handler leaves
    it.  For a terminal callable or member function that is its result;
    for a with-continuation one it is its run against a continuation that
    does nothing.  A member function runs on the instance given, and on a
    default-constructed one when the instance pointer is null or none is
    given.  This holds for every prefix, the empty one included. *)
Theorem registered_handler_invoked_once r path l w :
  handlers_ r !! registration_key r "GET" path = None ->
  ctx_method (ctx w) = "GET" -> ctx_path (ctx w) = path ->
  ctx_status (ctx w) = 404%N ->
  (forall func,
     make_routes (get r path (Fn_plain l func) []) w = Finished (func w, [l])) /\
  (forall func, user_code func ->
     exists w',
       exec func noop (Frame w [l] 0) = Finished (Frame w' [l] 0) /\
       make_routes (get r path (Fn_next l func) []) w = Finished (w', [l])) /\
  (forall func self,
     make_routes (get r path (Mem_plain_bound l func self) []) w
       = Finished (func (if is_null self then Temporary else Instance self) w, [l])) /\
  (forall func,
     make_routes (get r path (Mem_plain l func) []) w
       = Finished (func Temporary w, [l])) /\
  (forall func self,
     user_code (func (if is_null self then Temporary else Instance self)) ->
     exists w',
       exec (func (if is_null self then Temporary else Instance self)) noop (Frame w [l] 0)
         = Finished (Frame w' [l] 0) /\
       make_routes (get r path (Mem_next_bound l func self) []) w = Finished (w', [l])) /\
  (forall func, user_code (func Temporary) ->
     exists w',
       exec (func Temporary) noop (Frame w [l] 0) = Finished (Frame w' [l] 0) /\
       make_routes (get r path (Mem_next l func) []) w = Finished (w', [l])).
Proof.
  intros Hnone Hm Hp Hs.
  assert (forall b, user_code b ->
            exists w', exec b noop (Frame w [l] 0) = Finished (Frame w' [l] 0) /\
                       leave (exec (Mark l b) noop (Frame w [] 0)) = Finished (w', [l]))
    as Hnext.
  { intros b Hb. destruct (exec_user_code_noop b (Frame w [l] 0) Hb) as [w' Hex].
    exists w'. split; [done|]. simpl.
    change (record_entry l (Frame w [] 0)) with (Frame w [l] 0). by rewrite Hex. }
  unfold get. repeat split.
  - intros func. by rewrite make_routes_registered.
  - intros func Hf. rewrite make_routes_registered by done. by apply Hnext.
  - intros func self. by rewrite make_routes_registered.
  - intros func. by rewrite make_routes_registered.
  - intros func self Hf. rewrite make_routes_registered by done. by apply Hnext.
  - intros func Hf. rewrite make_routes_registered by done. by apply Hnext.
Qed.

(** C5: on a context whose status is not 404 the dispatcher returns at
    once: no handler is entered, the context is untouched, and the result
    is the same for every router, whatever its table holds. *)
Theorem handled_context_is_skipped r w :
  ctx_status (ctx w) <> 404%N ->
  routes r w = Finished (w, []).
Proof.
  intros Hs. unfold routes, make_routes.
  by rewrite (proj2 (N.eqb_neq _ _) Hs).
Qed.

(** C6: the first registration under a key wins.  A second registration
    under the same method and path returns the router unchanged; when the
    key was free before the first one, the entry is the handler stored for
    the first arguments, and that is what a matching dispatch runs. *)
Theorem first_registration_wins r method path a args b args' :
  register_impl (register_impl r method path a args) method path b args'
    = register_impl r method path a args /\
  (handlers_ r !! registration_key r method path = None ->
   handlers_ (register_impl (register_impl r method path a args) method path b args')
     !! registration_key r method path = Some (stored_handler a args) /\
   forall w,
     ctx_method (ctx w) = method -> ctx_path (ctx w) = path ->
     ctx_status (ctx w) = 404%N ->
     make_routes
       (register_impl (register_impl r method path a args) method path b args') w
       = stored_handler a args w).
Proof.
  assert (register_impl (register_impl r method path a args) method path b args'
          = register_impl r method path a args) as Hsame.
  { rewrite (register_impl_emplace _ _ _ b).
    rewrite (registration_key_prefix r)
      by (by rewrite register_impl_emplace, prefix_emplace).
    destruct (handlers_ (register_impl r method path a args)
                !! registration_key r method path) as [h|] eqn:Hl.
    - by apply (lookup_emplace_present _ _ h).
    - exfalso. rewrite register_impl_emplace, lookup_emplace in Hl.
      destruct (handlers_ r !! registration_key r method path); [done|].
      by rewrite decide_True in Hl. }
  split; [done|]. intros Hnone. rewrite Hsame. split.
  - rewrite register_impl_emplace. by apply lookup_emplace_absent.
  - intros w Hm Hp Hs. by apply make_routes_registered.
Qed.

(** C7 (amended): registration and lookup build the key by the same
    concatenation method + "+" + prefix + path, compared exactly, without
    normalisation.  The dispatcher puts the prefix in front of the path of
    the context as well, so a registration of GET [path] is matched by the
    contexts whose path is [path] itself: a router with prefix "/api" that
    registers GET "/users" matches a context with path "/users" and does
    not match one with path "/api/users". *)
Theorem route_key_concatenation :
  (forall r c, lookup_key r c = registration_key r (ctx_method c) (ctx_path c)) /\
  (forall p path a args w,
     ctx_method (ctx w) = "GET" -> ctx_status (ctx w) = 404%N ->
     make_routes (get (Router p ∅) path a args) w =
       if decide (ctx_path (ctx w) = path) then stored_handler a args w
       else Finished (w, [])) /\
  (forall a args w,
     ctx_method (ctx w) = "GET" -> ctx_status (ctx w) = 404%N ->
     (ctx_path (ctx w) = "/users" ->
      make_routes (get (Router "/api" ∅) "/users" a args) w = stored_handler a args w) /\
     (ctx_path (ctx w) = "/api/users" ->
      make_routes (get (Router "/api" ∅) "/users" a args) w = Finished (w, []))).
Proof.
  assert (forall p path a args w,
     ctx_method (ctx w) = "GET" -> ctx_status (ctx w) = 404%N ->
     make_routes (get (Router p ∅) path a args) w =
       if decide (ctx_path (ctx w) = path) then stored_handler a args w
       else Finished (w, [])) as Hmatch.
  { intros p path a args w Hm Hs. unfold get. rewrite register_impl_emplace.
    unfold make_routes. rewrite Hs. cbn [N.eqb Pos.eqb negb].
    rewrite lookup_key_registration, Hm, lookup_emplace.
    rewrite (registration_key_prefix (Router p ∅)) by apply prefix_emplace.
    cbn [handlers_]. rewrite lookup_empty.
    destruct (decide (ctx_path (ctx w) = path)) as [->|Hne].
    - by rewrite decide_True.
    - rewrite decide_False; [done|]. unfold registration_key. intros Heq.
      by apply (inj (String.append _)) in Heq. }
  split; [done|]. split; [exact Hmatch|].
  intros a args w Hm Hs. split; intros Hp; rewrite Hmatch, Hp by done.
  - by rewrite decide_True.
  - by rewrite decide_False.
Qed.

(** C8: after [redirect(path, destination)] with a string literal for the
    destination, the dispatch of an unhandled context with that path
    leaves it with status 301 and redirect target [destination]; with
    [redirect(path, destination, status)] the status is [status] as an
    [unsigned], 302 for 302.  This holds under each of the five verbs
    whose key was free, [redirect] registering through [all]. *)
Theorem redirect_sets_status_and_target r path destination status method w :
  method ∈ methods ->
  handlers_ r !! registration_key r method path = None ->
  ctx_method (ctx w) = method -> ctx_path (ctx w) = path ->
  ctx_status (ctx w) = 404%N ->
  to_unsigned 302 = 302%N /\
  exists w',
    make_routes (redirect r path (Chars destination) status) w
      = Finished (w', [redirect_label]) /\
    ctx_status (ctx w') = match status with Some z => to_unsigned z | None => 301%N end /\
    ctx_location (ctx w') = Some destination.
Proof.
  intros Hin Hnone Hm Hp Hs. split; [done|].
  assert (forall s, make_routes (redirect_impl r path (Chars destination) s) w
                    = Finished (redirect_handler destination s w, [redirect_label])) as Hrun.
  { intros s. unfold redirect_impl, make_routes. rewrite Hs. cbn [N.eqb Pos.eqb negb].
    rewrite lookup_key_registration, Hm, Hp.
    rewrite (registration_key_prefix r) by apply prefix_all.
    change (fun k : nat => Fn_plain redirect_label
              (redirect_handler (destination_after k (Chars destination)) s))
      with (intact (Fn_plain redirect_label (redirect_handler destination s))).
    change (@nil forwarded) with (intact <$> @nil handler_arg).
    by rewrite lookup_all. }
  destruct status as [s|]; cbn [redirect]; rewrite Hrun; eexists; split; done.
Qed.

(** C9: on an unhandled context whose key has no entry the dispatcher does
    nothing: no handler is entered and the context is returned as it came,
    status 404 included. *)
Theorem unmatched_route_is_noop r w :
  ctx_status (ctx w) = 404%N ->
  handlers_ r !! lookup_key r (ctx w) = None ->
  make_routes r w = Finished (w, []).
Proof.
  intros Hs Hnone. unfold make_routes. by rewrite Hs, Hnone.
Qed.

(** * Further properties of the router *)

(** ** The table under registration *)

Lemma append_cons c (s t : string) : String c s +:+ t = String c (s +:+ t).
Proof. reflexivity. Qed.

Lemma append_assoc (s1 s2 s3 : string) : (s1 +:+ s2) +:+ s3 = s1 +:+ (s2 +:+ s3).
Proof.
  induction s1 as [|c s1 IH]; [done|]. by rewrite !append_cons, IH.
Qed.

Lemma make_routes_register r method path a args w :
  make_routes (register_impl r method path a args) w =
    if negb (ctx_status (ctx w) =? 404)%N then Finished (w, [])
    else
      match (handlers_ r !! lookup_key r (ctx w) : option route_fn) with
      | Some h => h w
      | None =>
          if decide (registration_key r method path = lookup_key r (ctx w))
          then stored_handler a args w else Finished (w, [])
      end.
Proof.
  unfold make_routes. destruct (negb (ctx_status (ctx w) =? 404)%N); [done|].
  rewrite !lookup_key_registration, register_impl_emplace.
  rewrite (registration_key_prefix r) by apply prefix_emplace.
  rewrite lookup_emplace.
  destruct (handlers_ r !! registration_key r (ctx_method (ctx w)) (ctx_path (ctx w)));
    [done|].
  by case_decide.
Qed.

(** Every registration overload ends in [emplace]: an entry that exists is
    kept as it is, under the key registered as under every other, and the
    only entry that can appear is the one under the registered key. *)
Theorem registration_is_insert_only r method path a args key :
  handlers_ (register_impl r method path a args) !! key =
    match handlers_ r !! key with
    | Some h => Some h
    | None =>
        if decide (registration_key r method path = key)
        then Some (stored_handler a args) else None
    end /\
  prefix_ (register_impl r method path a args) = prefix_ r.
Proof.
  rewrite register_impl_emplace. split; [apply lookup_emplace|apply prefix_emplace].
Qed.

(** A registration changes the dispatch of no context but those whose key
    is the registered one; and not even theirs when that key was taken. *)
Theorem registration_frames_dispatch r method path a args w :
  lookup_key r (ctx w) <> registration_key r method path \/
  is_Some (handlers_ r !! registration_key r method path) ->
  make_routes (register_impl r method path a args) w = make_routes r w.
Proof.
  intros Hcase. rewrite make_routes_register. unfold make_routes.
  destruct (negb (ctx_status (ctx w) =? 404)%N); [done|].
  destruct (handlers_ r !! lookup_key r (ctx w)) as [h|] eqn:Hold; [done|].
  case_decide as Heq; [|done]. exfalso. destruct Hcase as [Hne|[h Hh]].
  - by apply Hne.
  - rewrite Heq in Hh. congruence.
Qed.

(** ** The five verbs *)

Lemma registration_key_verbs r m m' path path' :
  m ∈ methods -> m' ∈ methods ->
  registration_key r m path = registration_key r m' path' ->
  m = m' /\ path = path'.
Proof.
  unfold methods, registration_key. intros Hm Hm'.
  repeat (apply elem_of_cons in Hm as [->|Hm]);
    [| | | | |by apply elem_of_nil in Hm];
    repeat (apply elem_of_cons in Hm' as [->|Hm']);
    try (by apply elem_of_nil in Hm');
    rewrite !append_assoc, !append_cons;
    change ("" +:+ (prefix_ r +:+ path)) with (prefix_ r +:+ path);
    change ("" +:+ (prefix_ r +:+ path')) with (prefix_ r +:+ path');
    intros Heq; try discriminate;
    (split; [done|]); injection Heq as Heq;
    by apply (inj (String.append (prefix_ r))).
Qed.

(** A handler registered under one of the five verbs is not run for a
    request with another of them: on a context whose own key is free the
    dispatcher does nothing. *)
Theorem verbs_are_separate r m m' path a args w :
  m ∈ methods -> m' ∈ methods -> m <> m' ->
  ctx_method (ctx w) = m' ->
  handlers_ r !! lookup_key r (ctx w) = None ->
  make_routes (register_impl r m path a args) w = Finished (w, []).
Proof.
  intros Hm Hm' Hne Hw Hfree. rewrite make_routes_register.
  destruct (negb _); [done|]. rewrite Hfree.
  rewrite decide_False; [done|].
  rewrite lookup_key_registration, Hw. intros Heq.
  by apply registration_key_verbs in Heq as [-> _].
Qed.

(** [all], for handler arguments a move leaves intact (lvalues, function
    pointers, closures whose captures are pointers or numbers), registers
    the chain under each of the five verbs: a request with any of them
    runs what is stored for the arguments where the key was free and the
    handler already there where it was taken; [all] keeps the prefix and
    touches no other key. *)
Theorem all_registers_five_verbs r path a args method w :
  method ∈ methods ->
  ctx_method (ctx w) = method -> ctx_path (ctx w) = path ->
  ctx_status (ctx w) = 404%N ->
  make_routes (all r path (intact a) (intact <$> args)) w =
    match (handlers_ r !! registration_key r method path : option route_fn) with
    | Some h => h w
    | None => stored_handler a args w
    end /\
  (forall key, (forall m, m ∈ methods -> key <> registration_key r m path) ->
     handlers_ (all r path (intact a) (intact <$> args)) !! key = handlers_ r !! key).
Proof.
  intros Hin Hm Hp Hs.
  destruct (lookup_register_each a args path methods r) as [Hpre Hl].
  rewrite <- (all_rounds_intact a args path methods r 0) in Hpre, Hl.
  fold (all r path (intact a) (intact <$> args)) in Hpre, Hl. split.
  - unfold make_routes. rewrite Hs. cbn [N.eqb Pos.eqb negb].
    rewrite lookup_key_registration, Hm, Hp.
    rewrite (registration_key_prefix r) by done. rewrite Hl.
    destruct (handlers_ r !! registration_key r method path) as [h|]; [done|].
    rewrite decide_True; [done|]. apply list_elem_of_fmap. by exists method.
  - intros key Hkey. rewrite Hl. destruct (handlers_ r !! key); [done|].
    rewrite decide_False; [done|].
    intros (m & -> & Hmin)%list_elem_of_fmap. by apply (Hkey m).
Qed.

Lemma methods_NoDup : NoDup methods.
Proof. unfold methods. compute_done. Qed.

(** The rounds of [all] over verbs whose keys are free: every round
    inserts, so every round moves, and the verb of round [j] gets the
    arguments as [j] moves left them. *)
Lemma all_rounds_free path a args ms :
  forall r k,
    NoDup ms -> (forall m, m ∈ ms -> m ∈ methods) ->
    (forall m, m ∈ ms -> handlers_ r !! registration_key r m path = None) ->
    forall j m, ms !! j = Some m ->
      handlers_ (foldl (all_round path a args) (r, k) ms).1 !! registration_key r m path
      = Some (stored_handler (a (k + j)) ((fun f : forwarded => f (k + j)) <$> args)).
Proof.
  induction ms as [|m0 ms IH]; intros r k Hnd Hin Hfree j m Hj; [done|].
  apply NoDup_cons in Hnd as [Hm0 Hnd]. cbn [foldl].
  assert (all_round path a args (r, k) m0
          = (emplace (registration_key r m0 path)
               (stored_handler (a k) ((fun f : forwarded => f k) <$> args)) r, S k))
    as Hround.
  { unfold all_round. cbn [fst snd]. rewrite register_impl_emplace. f_equal.
    unfold moves_arguments. rewrite Hfree by (by left).
    by destruct ((fun f : forwarded => f k) <$> args), (a k). }
  rewrite Hround. set (r1 := emplace _ _ r).
  assert (prefix_ r1 = prefix_ r) as Hp1 by apply prefix_emplace.
  destruct j as [|j].
  - injection Hj as <-. rewrite Nat.add_0_r.
    apply (all_rounds_keep path a args ms (r1, S k)).
    by apply lookup_emplace_absent, Hfree; left.
  - rewrite <- (registration_key_prefix r r1) by done.
    replace (k + S j) with (S k + j) by lia.
    apply IH; [done| | |done].
    + intros m' Hm'. apply Hin. by right.
    + intros m' Hm'. rewrite (registration_key_prefix r r1) by done.
      unfold r1. rewrite lookup_emplace, Hfree by (by right).
      rewrite decide_False; [done|]. intros Heq.
      apply registration_key_verbs in Heq as [-> _];
        [done|by apply Hin; left|by apply Hin; right].
Qed.

(** [all] forwards its arguments as they are after each round.  Where the
    keys of the five verbs are free, the verb at position [j] of DEL, GET,
    HEAD, POST, PUT runs the handler built from the arguments after [j]
    moves: DEL the arguments as given, the other four what the moves of
    the rounds before left of them. *)
Theorem all_forwards_moved_arguments r path a args j method w :
  methods !! j = Some method ->
  (forall m, m ∈ methods -> handlers_ r !! registration_key r m path = None) ->
  ctx_method (ctx w) = method -> ctx_path (ctx w) = path ->
  ctx_status (ctx w) = 404%N ->
  make_routes (all r path a args) w
    = stored_handler (a j) ((fun f : forwarded => f j) <$> args) w.
Proof.
  intros Hj Hfree Hm Hp Hs. unfold make_routes. rewrite Hs. cbn [N.eqb Pos.eqb negb].
  rewrite lookup_key_registration, Hm, Hp.
  rewrite (registration_key_prefix r) by apply prefix_all.
  unfold all.
  by rewrite (all_rounds_free path a args methods r 0 methods_NoDup
                ltac:(done) Hfree j method Hj).
Qed.

(** [redirect] with a [std::string] destination on a router where the
    keys of the five verbs are free: the lambda is moved on every round
    of [all], so a request with the verb at position [j] is redirected to
    what [j] moves left of the destination; only DEL gets the destination
    as given. *)
Theorem redirect_moves_string_destination r path d status j method w :
  methods !! j = Some method ->
  (forall m, m ∈ methods -> handlers_ r !! registration_key r m path = None) ->
  ctx_method (ctx w) = method -> ctx_path (ctx w) = path ->
  ctx_status (ctx w) = 404%N ->
  exists w',
    make_routes (redirect r path (Str d) status) w = Finished (w', [redirect_label]) /\
    ctx_location (ctx w') = Some (Nat.iter j moved_from d).
Proof.
  intros Hj Hfree Hm Hp Hs.
  assert (forall s, make_routes (redirect_impl r path (Str d) s) w
            = Finished (redirect_handler (Nat.iter j moved_from d) s w, [redirect_label]))
    as Hrun.
  { intros s. unfold redirect_impl, make_routes. rewrite Hs. cbn [N.eqb Pos.eqb negb].
    rewrite lookup_key_registration, Hm, Hp.
    rewrite (registration_key_prefix r) by apply prefix_all.
    unfold all.
    by rewrite (all_rounds_free path _ [] methods r 0 methods_NoDup
                  ltac:(done) Hfree j method Hj). }
  destruct status as [z|]; cbn [redirect]; rewrite Hrun; eexists; split; done.
Qed.

(** ** The prefix *)

(** The prefix is part of a key from the registration on: after
    [prefix(q)] a route registered under prefix [p] answers the contexts
    whose path [c] satisfies [p + path = q + c], and no others. *)
Theorem prefix_is_baked_in p q method path a args w :
  ctx_method (ctx w) = method -> ctx_status (ctx w) = 404%N ->
  make_routes (prefix q (register_impl (Router p ∅) method path a args)) w =
    if decide (p +:+ path = q +:+ ctx_path (ctx w))
    then stored_handler a args w else Finished (w, []).
Proof.
  intros Hm Hs. unfold make_routes. rewrite Hs. cbn [N.eqb Pos.eqb negb].
  rewrite lookup_key_registration, Hm. cbn [prefix handlers_].
  rewrite register_impl_emplace, lookup_emplace.
  cbn [handlers_]. rewrite lookup_empty.
  unfold registration_key. cbn [prefix prefix_].
  rewrite !(append_assoc (method +:+ "+")).
  destruct (decide (p +:+ path = q +:+ ctx_path (ctx w))) as [Heq|Hne].
  - by rewrite decide_True by (by rewrite Heq).
  - rewrite decide_False; [done|]. intros Heq. by apply (inj (String.append _)) in Heq.
Qed.

(** ** The handler vector *)

Lemma handlers_of_lookup args i x :
  args !! i = Some x ->
  handlers_of args !! i =
    Some (if decide (S i = length args) then wrap_last x else wrap x).
Proof.
  revert i. induction args as [|a [|a' args] IH]; intros i Hi; [done| |].
  - destruct i; [|done]. by injection Hi as ->.
  - rewrite handlers_of_cons. destruct i as [|i].
    + injection Hi as ->. by rewrite decide_False by (simpl; lia).
    + change ((a :: a' :: args) !! S i) with ((a' :: args) !! i) in Hi.
      change ((wrap a :: handlers_of (a' :: args)) !! S i)
        with (handlers_of (a' :: args) !! i).
      rewrite (IH i Hi). cbn [length].
      destruct (decide (S i = S (length args))).
      * by rewrite decide_True by lia.
      * by rewrite decide_False by lia.
Qed.

(** [register_multiple] pushes one closure for each argument, in the order
    given, behind the closures that are already there: the argument at
    position [i] gives the closure at position [i] behind them, built by
    the overload for a last argument exactly when it is the last. *)
Theorem register_multiple_positions handlers a args :
  length (register_multiple handlers a args) = length handlers + S (length args) /\
  (forall i h, handlers !! i = Some h ->
     register_multiple handlers a args !! i = Some h) /\
  (forall i x, (a :: args) !! i = Some x ->
     register_multiple handlers a args !! (length handlers + i) =
       Some (if decide (i = length args) then wrap_last x else wrap x)).
Proof.
  rewrite register_multiple_app, register_multiple_handlers_of.
  split; [|split].
  - by rewrite length_app, length_handlers_of.
  - intros i h Hi. by apply lookup_app_l_Some.
  - intros i x Hi. rewrite lookup_app_r by lia.
    replace (length handlers + i - length handlers) with i by lia.
    rewrite (handlers_of_lookup _ _ _ Hi). cbn [length].
    destruct (decide (i = length args)).
    + by rewrite decide_True by lia.
    + by rewrite decide_False by lia.
Qed.

Lemma stored_handler_chain a args :
  args <> [] -> stored_handler a args = composed (handlers_of (a :: args)).
Proof.
  intros Hne. unfold stored_handler. destruct args; [done|].
  by rewrite register_multiple_handlers_of.
Qed.

(** ** Chains of terminal-shape handlers *)

(** Registered together, terminal-shape handlers all run, in the order
    given: the dispatch applies their effects one after the other and
    enters each once, the member functions with a null instance pointer
    left out. *)
Theorem terminal_chain_runs_all r method path a args w :
  args <> [] ->
  Forall (fun x => terminal x = true) (a :: args) ->
  handlers_ r !! registration_key r method path = None ->
  ctx_method (ctx w) = method -> ctx_path (ctx w) = path ->
  ctx_status (ctx w) = 404%N ->
  make_routes (register_impl r method path a args) w
    = Finished (effects (a :: args) w, entries (a :: args)).
Proof.
  intros Hne Hall Hfree Hm Hp Hs.
  rewrite make_routes_registered, stored_handler_chain by done.
  by apply composed_terminal_chain.
Qed.

(** ** A guard anywhere in the chain *)

Lemma composed_guard_behind pre l f tail w w' :
  Forall (fun a => terminal a = true) pre ->
  run_without_next f (effects pre w) = Some w' ->
  composed (map wrap pre ++ Mark l f :: tail) w = Finished (w', entries pre ++ [l]).
Proof.
  intros Hpre Hf. destruct pre as [|a0 pre].
  - cbn [map app]. unfold effects, entries in *. simpl in Hf.
    by apply composed_stops_at_first.
  - apply Forall_cons_1 in Hpre as [Ha0 Hpre].
    cbn [map app]. rewrite composed_many by (by destruct pre).
    rewrite exec_wrap_terminal by done. cbn [mem trace index].
    replace (S (length (map wrap pre ++ Mark l f :: tail)))
      with (length pre + S (S (length tail)))
      by (rewrite length_app, length_map; simpl; lia).
    rewrite (advance_terminal_segment pre Hpre [wrap a0] (Mark l f :: tail)) by done.
    rewrite (advance_enter _ _ _ (Mark l f)).
    2:{ cbn [index app]. rewrite Nat.add_0_l. simpl.
        rewrite lookup_app_r by (rewrite length_map; lia).
        by rewrite length_map, Nat.sub_diag. }
    cbn [exec]. rewrite (exec_run_without_next f _ _ w') by done.
    cbn [leave mem trace record_entry incr_index]. unfold entries. simpl.
    by rewrite <- app_assoc.
Qed.

(** A with-continuation handler that returns without calling its
    continuation stops the chain wherever it stands: behind terminal-shape
    handlers, which run, it is entered and nothing after it is. *)
Theorem guard_stops_chain r method path a args pre l f post w w' :
  args <> [] ->
  a :: args = pre ++ Fn_next l f :: post ->
  Forall (fun x => terminal x = true) pre ->
  run_without_next f (effects pre w) = Some w' ->
  handlers_ r !! registration_key r method path = None ->
  ctx_method (ctx w) = method -> ctx_path (ctx w) = path ->
  ctx_status (ctx w) = 404%N ->
  make_routes (register_impl r method path a args) w
    = Finished (w', entries pre ++ [l]).
Proof.
  intros Hne Hsplit Hpre Hf Hfree Hm Hp Hs.
  rewrite make_routes_registered, stored_handler_chain by done.
  rewrite Hsplit, handlers_of_app_cons.
  assert (match post with
          | [] => wrap_last (Fn_next l f)
          | _ :: _ => wrap (Fn_next l f)
          end = Mark l f) as -> by (by destruct post).
  by apply composed_guard_behind.
Qed.

(** ** Chains of any length *)

Lemma handlers_of_callables hs : handlers_of (callables hs) = chain_of hs.
Proof.
  induction hs as [|h [|h' hs] IH]; [done|done|].
  change (callables (h :: h' :: hs))
    with (Fn_next h.1 h.2 :: Fn_next h'.1 h'.2 :: callables hs).
  rewrite handlers_of_cons.
  change (Fn_next h'.1 h'.2 :: callables hs) with (callables (h' :: hs)).
  by rewrite IH.
Qed.

(** However many with-continuation handlers a route is registered with,
    one alone included: when each calls its continuation exactly once, a
    matching dispatch enters them all, first to last, once each. *)
Theorem chain_of_any_length_runs_in_order r method path h hs w :
  Forall (fun x => continues 1 x.2) (h :: hs) ->
  handlers_ r !! registration_key r method path = None ->
  ctx_method (ctx w) = method -> ctx_path (ctx w) = path ->
  ctx_status (ctx w) = 404%N ->
  exists w',
    make_routes (register_impl r method path (Fn_next h.1 h.2) (callables hs)) w
      = Finished (w', (h :: hs).*1).
Proof.
  intros Hall Hfree Hm Hp Hs. rewrite make_routes_registered by done.
  assert (stored_handler (Fn_next h.1 h.2) (callables hs) w
          = composed (chain_of (h :: hs)) w) as ->.
  { destruct hs as [|h' hs]; [done|].
    rewrite stored_handler_chain by done.
    by rewrite <- handlers_of_callables. }
  by apply composed_runs_all.
Qed.

(** ** The cursor against nesting *)

Lemma same_state_refl fr : same_state fr fr.
Proof. done. Qed.

(** Code that does not call [next] does the same against any two
    continuations. *)
Lemma exec_agree_0 b n1 n2 :
  at_most 0 b ->
  forall fr fr', same_state fr fr' ->
    agree (exec b n1 fr) (exec b n2 fr') /\
    forall fr1, exec b n1 fr = Finished fr1 -> index fr1 = index fr.
Proof.
  intros Hb. remember 0 as n eqn:Hn.
  induction Hb as [n|n f k _ IH|n g _ IH|n k _ _|n l k _ IH];
    intros fr fr' [Hmem Htr]; simpl.
  - split; [by exists fr, fr'|]. by intros fr1 [= <-].
  - destruct (IH Hn (set_mem f fr) (set_mem f fr')) as [Ha Hi];
      [by split; simpl; [rewrite Hmem|]|]. done.
  - rewrite <- Hmem. by apply IH.
  - done.
  - destruct (IH Hn (record_entry l fr) (record_entry l fr')) as [Ha Hi];
      [by split; simpl; [|rewrite Htr]|]. done.
Qed.

(** Code that calls [next] at most once, started at cursor [p], needs its
    continuations to agree at cursor [p] only. *)
Lemma exec_agree_1 b n1 n2 p :
  at_most 1 b ->
  (forall fr fr', index fr = p -> same_state fr fr' -> agree (n1 fr) (n2 fr')) ->
  forall fr fr', index fr = p -> same_state fr fr' ->
    agree (exec b n1 fr) (exec b n2 fr').
Proof.
  intros Hb Hnext. remember 1 as n eqn:Hn.
  induction Hb as [n|n f k _ IH|n g _ IH|n k Hk _|n l k _ IH];
    intros fr fr' Hp [Hmem Htr]; simpl.
  - by exists fr, fr'.
  - apply IH; [done|done|]. by split; simpl; [rewrite Hmem|].
  - rewrite <- Hmem. by apply IH.
  - injection Hn as ->.
    destruct (Hnext fr fr' Hp (conj Hmem Htr)) as (fr1 & fr1' & -> & -> & Hsame).
    by apply exec_agree_0.
  - apply IH; [done|done|]. by split; simpl; [|rewrite Htr].
Qed.

Lemma advance_agree_nested handlers fuel :
  Forall (at_most 1) handlers ->
  forall fr fr',
    S (index fr) <= length handlers -> length handlers <= S (index fr) + fuel ->
    same_state fr fr' ->
    agree (advance handlers fuel fr) (run_nested (drop (S (index fr)) handlers) fr').
Proof.
  intros Hall. induction fuel as [|fuel IH]; intros fr fr' Hlo Hfuel Hsame.
  - rewrite advance_end, drop_ge by lia. by exists (incr_index fr), fr'.
  - destruct (decide (S (index fr) = length handlers)) as [Heq|Hne].
    { rewrite advance_end, drop_ge by lia. by exists (incr_index fr), fr'. }
    destruct (lookup_lt_is_Some_2 handlers (S (index fr))) as [h Hh]; [lia|].
    rewrite (advance_enter _ _ _ h Hh), (drop_S _ _ _ Hh). cbn [run_nested].
    apply (exec_agree_1 h _ _ (S (index fr))); [|
      |done|done].
    + eapply Forall_lookup_1 in Hall; [|exact Hh]. exact Hall.
    + intros f f' Hf Hff. rewrite <- Hf. apply IH; [lia|lia|done].
Qed.

(** Where every handler of the vector calls its continuation at most once,
    the composed handler never indexes the vector out of range, and what it
    does is the nesting of the handlers: each run with the rest of the
    chain as its continuation. *)
Lemma composed_is_nested handlers w :
  Forall (at_most 1) handlers ->
  exists w' t,
    composed handlers w = Finished (w', t) /\
    leave (run_nested handlers (Frame w [] 0)) = Finished (w', t).
Proof.
  intros Hall. destruct handlers as [|h0 rest].
  { by exists w, []. }
  assert (at_most 1 h0) as Hh0 by (by apply Forall_cons_1 in Hall as [? _]).
  assert (agree (exec h0 (match rest with
                          | [] => noop
                          | _ :: _ => advance (h0 :: rest) (S (length rest))
                          end) (Frame w [] 0))
                (exec h0 (run_nested rest) (Frame w [] 0)))
    as (fr & fr' & Hrun & Hnested & Hmem & Htr).
  { apply (exec_agree_1 h0 _ _ 0); [done| |done|done].
    intros f f' Hf Hff. destruct rest as [|h1 rest].
    - by exists f, f'.
    - change (run_nested (h1 :: rest)) with (run_nested (drop (S 0) (h0 :: h1 :: rest))).
      rewrite <- Hf. apply advance_agree_nested; [done| | |done].
      + rewrite Hf. simpl. lia.
      + simpl. lia. }
  exists (mem fr), (trace fr). split.
  - destruct rest as [|h1 rest];
      [unfold composed|rewrite composed_many by done]; by rewrite Hrun.
  - cbn [run_nested]. rewrite Hnested. simpl. by rewrite Hmem, Htr.
Qed.

Lemma at_most_wrap a :
  continues_at_most_once a -> at_most 1 (wrap a) /\ at_most 1 (wrap_last a).
Proof.
  destruct a as [l f|l f|l f self|l f|l f self|l f]; simpl; intros Ha;
    try destruct (is_null self); split; repeat constructor; auto.
Qed.

Lemma at_most_handlers_of args :
  Forall continues_at_most_once args -> Forall (at_most 1) (handlers_of args).
Proof.
  induction args as [|a [|a' args] IH]; intros Hall; [constructor| |].
  - apply Forall_cons_1 in Hall as [Ha _]. repeat constructor.
    by apply at_most_wrap.
  - apply Forall_cons_1 in Hall as [Ha Hall]. rewrite handlers_of_cons.
    constructor; [by apply at_most_wrap|by apply IH].
Qed.

(** Handlers registered together, of whatever shapes, whose user code calls
    the continuation at most once: a matching dispatch returns, and does
    what the closures [register_multiple] built do when nested, each with
    the rest of the chain as its continuation. *)
Theorem well_behaved_chain_is_nested r method path a args w :
  args <> [] ->
  Forall continues_at_most_once (a :: args) ->
  handlers_ r !! registration_key r method path = None ->
  ctx_method (ctx w) = method -> ctx_path (ctx w) = path ->
  ctx_status (ctx w) = 404%N ->
  exists w' t,
    make_routes (register_impl r method path a args) w = Finished (w', t) /\
    leave (run_nested (register_multiple [] a args) (Frame w [] 0)) = Finished (w', t).
Proof.
  intros Hne Hall Hfree Hm Hp Hs.
  rewrite make_routes_registered, stored_handler_chain by done.
  rewrite register_multiple_handlers_of.
  by apply composed_is_nested, at_most_handlers_of.
Qed.

(** ** A null instance pointer in a chain *)

Lemma exec_ext b n1 n2 :
  (forall fr, n1 fr = n2 fr) -> forall fr, exec b n1 fr = exec b n2 fr.
Proof.
  intros Hn. induction b as [|f k IH|g IH|k IH|l k IH]; intros fr; simpl; auto.
  rewrite Hn. by destruct (n2 fr).
Qed.

(** [next], below a handler that returns at once, against the nesting of
    the handlers before it. *)
Lemma advance_agree_before_stop front tail fuel :
  Forall (at_most 1) front ->
  forall fr fr',
    S (index fr) <= length front -> length front < S (index fr) + fuel ->
    same_state fr fr' ->
    agree (advance (front ++ Return :: tail) fuel fr)
          (run_nested (drop (S (index fr)) front) fr').
Proof.
  intros Hall. induction fuel as [|fuel IH]; intros fr fr' Hlo Hfuel Hsame; [lia|].
  destruct (decide (S (index fr) = length front)) as [Heq|Hne].
  - rewrite (advance_enter _ _ _ Return).
    2:{ rewrite lookup_app_r by lia. by rewrite Heq, Nat.sub_diag. }
    rewrite drop_ge by lia. by exists (incr_index fr), fr'.
  - destruct (lookup_lt_is_Some_2 front (S (index fr))) as [h Hh]; [lia|].
    rewrite (advance_enter _ _ _ h) by (by apply lookup_app_l_Some).
    rewrite (drop_S _ _ _ Hh). cbn [run_nested].
    apply (exec_agree_1 h _ _ (S (index fr))); [| |done|done].
    + eapply Forall_lookup_1 in Hall; [|exact Hh]. exact Hall.
    + intros f f' Hf Hff. rewrite <- Hf. apply IH; [lia|lia|done].
Qed.

(** A vector with a handler that returns at once: where the handlers in
    front of it call their continuation at most once, the composed handler
    does what they do when nested, whatever stands behind. *)
Lemma composed_stops_at_return front tail w :
  Forall (at_most 1) front ->
  composed (front ++ Return :: tail) w = leave (run_nested front (Frame w [] 0)).
Proof.
  intros Hall. destruct front as [|h0 front].
  { by destruct tail. }
  apply Forall_cons_1 in Hall as [Hh0 Hall].
  cbn [app]. rewrite composed_many by (by destruct front).
  destruct (exec_agree_1 h0
              (advance (h0 :: front ++ Return :: tail)
                 (S (length (front ++ Return :: tail))))
              (run_nested front) 0 Hh0) with (fr := Frame w [] 0) (fr' := Frame w [] 0)
    as (fr & fr' & Hrun & Hnested & Hmem & Htr); [|done|done|].
  - intros f f' Hf Hff.
    change (run_nested front) with (run_nested (drop (S 0) (h0 :: front))).
    rewrite <- Hf.
    apply (advance_agree_before_stop (h0 :: front) tail); [by constructor| | |done].
    + rewrite Hf. simpl. lia.
    + rewrite Hf, length_app. simpl. lia.
  - cbn [run_nested]. rewrite Hrun, Hnested. simpl. by rewrite Hmem, Htr.
Qed.

Lemma at_most_wraps args :
  Forall continues_at_most_once args -> Forall (at_most 1) (map wrap args).
Proof.
  induction 1 as [|a args Ha _ IH]; [constructor|].
  constructor; [by apply at_most_wrap|done].
Qed.

Lemma run_nested_skip front rest fr :
  run_nested (front ++ Next Return :: rest) fr = run_nested (front ++ rest) fr.
Proof.
  revert fr. induction front as [|h front IH]; intros fr.
  - apply exec_next_return.
  - cbn [app run_nested]. by apply exec_ext.
Qed.

Lemma handlers_of_app pre post :
  post <> [] -> handlers_of (pre ++ post) = map wrap pre ++ handlers_of post.
Proof.
  intros Hne. destruct post as [|x post]; [done|].
  rewrite handlers_of_app_cons. by destruct post.
Qed.

(** C10 (amended): among the two or more handler arguments of one
    registration, the closure of a with-continuation member function given
    with a null instance pointer calls neither the member nor the
    continuation: where the handlers before it call their continuation at
    most once, the dispatch does exactly what those handlers do, and no
    handler after it runs, whatever the later handlers are.  The closure
    of a terminal-shape member function given with a null instance pointer
    does not call the member; in a non-final position it calls the
    continuation, so that, where the other handlers call theirs at most
    once, the dispatch does exactly what the chain of the other handlers
    does; in final position it does nothing, and the dispatch is what the
    handlers before it do. *)
Theorem null_instance_in_chain r method path a args w :
  args <> [] ->
  handlers_ r !! registration_key r method path = None ->
  ctx_method (ctx w) = method -> ctx_path (ctx w) = path ->
  ctx_status (ctx w) = 404%N ->
  (forall l func pre post,
     Forall continues_at_most_once pre ->
     a :: args = pre ++ Mem_next_bound l func nullptr :: post ->
     make_routes (register_impl r method path a args) w
       = leave (run_nested (map wrap pre) (Frame w [] 0))) /\
  (forall l func pre post b rest,
     Forall continues_at_most_once (pre ++ post) ->
     post <> [] -> pre ++ post = b :: rest ->
     a :: args = pre ++ Mem_plain_bound l func nullptr :: post ->
     make_routes (register_impl r method path a args) w
       = leave (run_nested (register_multiple [] b rest) (Frame w [] 0))) /\
  (forall l func pre,
     Forall continues_at_most_once pre ->
     a :: args = pre ++ [Mem_plain_bound l func nullptr] ->
     make_routes (register_impl r method path a args) w
       = leave (run_nested (map wrap pre) (Frame w [] 0))).
Proof.
  intros Hargs Hnone Hm Hp Hs.
  assert (make_routes (register_impl r method path a args) w
          = composed (handlers_of (a :: args)) w) as ->.
  { by rewrite make_routes_registered, stored_handler_chain. }
  split; [|split].
  - intros l func pre post Hpre ->. rewrite handlers_of_app_cons.
    assert (match post with
            | [] => wrap_last (Mem_next_bound l func nullptr)
            | _ :: _ => wrap (Mem_next_bound l func nullptr)
            end = Return) as -> by (by destruct post).
    by apply composed_stops_at_return, at_most_wraps.
  - intros l func pre post b rest Hall Hpost Hsplit ->.
    apply Forall_app in Hall as Hboth. destruct Hboth as [Hpre Hposts].
    rewrite register_multiple_handlers_of, <- Hsplit.
    rewrite handlers_of_app_cons, (handlers_of_app pre post) by done.
    assert (match post with
            | [] => wrap_last (Mem_plain_bound l func nullptr)
            | _ :: _ => wrap (Mem_plain_bound l func nullptr)
            end = Next Return) as -> by (by destruct post).
    destruct (composed_is_nested
                (map wrap pre ++ Next Return :: handlers_of post) w)
      as (w' & t & -> & <-).
    { apply Forall_app. split; [by apply at_most_wraps|].
      constructor; [repeat constructor|by apply at_most_handlers_of]. }
    by rewrite run_nested_skip.
  - intros l func pre Hpre ->. rewrite handlers_of_app_cons.
    by apply composed_stops_at_return, at_most_wraps.
Qed.

(** ** A continuation called after the chain has ended *)

(** [next] never looks at the first handler. *)
Lemma advance_head h0 h0' rest fuel fr :
  advance (h0 :: rest) fuel fr = advance (h0' :: rest) fuel fr.
Proof.
  revert fr. induction fuel as [|fuel IH]; intros fr.
  - destruct (rest !! index fr) as [h|] eqn:Hh.
    + by rewrite !(advance_enter_0 _ _ h).
    + apply lookup_ge_None in Hh.
      destruct (decide (index fr = length rest)) as [Heq|Hne'].
      * by rewrite !advance_end by (simpl; lia).
      * by rewrite !advance_out by (simpl; lia).
  - destruct (rest !! index fr) as [h|] eqn:Hh.
    + rewrite !(advance_enter _ _ _ h) by done. by apply exec_ext.
    + apply lookup_ge_None in Hh.
      destruct (decide (index fr = length rest)) as [Heq|Hne'].
      * by rewrite !advance_end by (simpl; lia).
      * by rewrite !advance_out by (simpl; lia).
Qed.

(** A body that calls [next] more often than [next] succeeds. *)
Lemma exec_continues_out (Inv : nat -> nat -> list label -> Prop) next m b :
  continues m b ->
  forall j stop fr,
    j <= stop < j + m ->
    (forall i fr0, j <= i < stop -> Inv i (index fr0) (trace fr0) ->
       exists fr1, next fr0 = Finished fr1 /\ Inv (S i) (index fr1) (trace fr1)) ->
    (forall fr0, Inv stop (index fr0) (trace fr0) -> next fr0 = OutOfRange) ->
    Inv j (index fr) (trace fr) ->
    exec b next fr = OutOfRange.
Proof.
  induction 1 as [|n f k _ IH|n g _ IH|n k _ IH];
    intros j stop fr Hstop Hnext Hout Hinv; simpl.
  - lia.
  - by apply (IH j stop).
  - by apply (IH (mem fr) j stop).
  - destruct (decide (j = stop)) as [->|Hne].
    + by rewrite (Hout fr).
    + destruct (Hnext j fr) as (fr1 & -> & Hinv1); [lia|done|].
      apply (IH (S j) stop); [lia| |done|done].
      intros i fr0 Hi. apply Hnext. lia.
Qed.

(** In a chain of two or more handlers that each call their continuation
    once, a first handler that calls it a second time indexes the handler
    vector out of range: the first call has taken the cursor to the end,
    and the second moves it past the only value [next] returns on. *)
Theorem second_call_is_out_of_range r method path l f h hs w :
  continues 2 f ->
  Forall (fun x => continues 1 x.2) (h :: hs) ->
  handlers_ r !! registration_key r method path = None ->
  ctx_method (ctx w) = method -> ctx_path (ctx w) = path ->
  ctx_status (ctx w) = 404%N ->
  make_routes (register_impl r method path (Fn_next l f) (callables (h :: hs))) w
    = OutOfRange.
Proof.
  intros Hf Hall Hfree Hm Hp Hs.
  rewrite make_routes_registered, stored_handler_chain by done.
  change (Fn_next l f :: callables (h :: hs)) with (callables ((l, f) :: h :: hs)).
  rewrite handlers_of_callables.
  set (n := length (h :: hs)).
  change (chain_of ((l, f) :: h :: hs)) with (Mark l f :: chain_of (h :: hs)).
  rewrite composed_many by done. cbn [exec].
  replace (S (length (chain_of (h :: hs)))) with (S n) by (by rewrite length_chain_of).
  assert (exec f (advance (Mark l f :: chain_of (h :: hs)) (S n))
            (record_entry l (Frame w [] 0)) = OutOfRange) as ->; [|done].
  apply (exec_continues_out
           (fun i idx _ => match i with 0 => idx = 0 | _ => idx = S n end)
           _ 2 f Hf 0 1); [lia| | |done].
  - intros i fr0 Hi Hinv. assert (i = 0) as -> by lia.
    rewrite (advance_head _ (Mark l (Next Return))).
    destruct (advance_runs_rest ((l, Next Return) :: h :: hs) (S n)) with (fr := fr0)
      as (fr1 & Hadv & Hidx & _).
    + constructor; [repeat constructor|done].
    + rewrite Hinv. unfold n. cbn [length]. lia.
    + rewrite Hinv. unfold n. cbn [length]. lia.
    + exists fr1. split; [exact Hadv|exact Hidx].
  - intros fr0 Hinv. apply advance_out.
    cbn [length]. rewrite length_chain_of, Hinv. unfold n. lia.
Qed.

End Model.

Arguments World {env}.
Arguments ctx {env}.
Arguments ext {env}.
Arguments on_ctx {env}.
Arguments Return {env}.
Arguments Do {env}.
Arguments Inspect {env}.
Arguments Next {env}.
Arguments Mark {env}.
Arguments Fn_next {env}.
Arguments Fn_plain {env}.
Arguments Mem_next_bound {env}.
Arguments Mem_next {env}.
Arguments Mem_plain_bound {env}.
Arguments Mem_plain {env}.
Arguments Frame {env}.
Arguments exec {env}.
Arguments noop {env}.
Arguments advance {env}.
Arguments composed {env}.
Arguments chain_of {env}.
Arguments Router {env}.
Arguments prefix_ {env}.
Arguments handlers_ {env}.
Arguments registration_key {env}.
Arguments lookup_key {env}.
Arguments register_impl {env}.
Arguments stored_handler {env}.
Arguments get {env}.
Arguments all {env}.
Arguments redirect {env}.
Arguments make_routes {env}.
Arguments routes {env}.
Arguments effects {env}.
Arguments entries {env}.
Arguments terminal {env}.
Arguments continues {env}.
Arguments user_code {env}.
Arguments request {env}.
Arguments respond {env}.
Arguments wrap {env}.
Arguments wrap_last {env}.
Arguments run_without_next {env}.
Arguments register_multiple {env}.
Arguments prefix {env}.
Arguments callables {env}.
Arguments run_nested {env}.
Arguments leave {env}.
Arguments intact {env}.
Arguments redirect_handler {env}.

(** * The properties at concrete requests *)





(** C4 at GET "/x" on a router with empty prefix: a terminal callable, and
    a with-continuation member function given with a null instance
    pointer, which runs on a default-constructed object. *)
Lemma registered_handler_invoked_once_witness :
  make_routes (get (Router "" ∅) "/x" (Fn_plain "h" (respond 200)) [])
    (request "GET" "/x" 404 tt)
  = Finished (request "GET" "/x" 200 tt, ["h"]) /\
  exists w',
    exec (Do (respond 201) (Next Return)) noop (Frame (request "GET" "/x" 404 tt) ["m"] 0)
      = Finished (Frame w' ["m"] 0) /\
    make_routes
      (get (Router "" ∅) "/x"
         (Mem_next_bound "m"
            (fun rcv => match rcv with
                        | Temporary => Do (respond 201) (Next Return)
                        | Instance _ => Do (respond 500) Return
                        end) nullptr) [])
      (request "GET" "/x" 404 tt)
    = Finished (w', ["m"]).
Proof.
  split.
  - destruct (registered_handler_invoked_once unit (Router "" ∅) "/x" "h"
                (request "GET" "/x" 404 tt)) as [Hplain _];
      [reflexivity | reflexivity | reflexivity | reflexivity |].
    apply Hplain.
  - destruct (registered_handler_invoked_once unit (Router "" ∅) "/x" "m"
                (request "GET" "/x" 404 tt)) as (_ & _ & _ & _ & Hmember & _);
      [reflexivity | reflexivity | reflexivity | reflexivity |].
    apply (Hmember
             (fun rcv => match rcv with
                         | Temporary => Do (respond 201) (Next Return)
                         | Instance _ => Do (respond 500) Return
                         end) nullptr).
    repeat constructor.
Defined.

(** C5 at a context already answered with 200. *)
Lemma handled_context_is_skipped_witness :
  routes (get (Router "" ∅) "/x" (Fn_plain "h" (respond 500)) [])
    (request "GET" "/x" 200 tt)
  = Finished (request "GET" "/x" 200 tt, []).
Proof. apply handled_context_is_skipped. simpl. lia. Defined.

(** C6 at handlers A and B for GET "/x". *)
Lemma first_registration_wins_witness :
  make_routes
    (get (get (Router "" ∅) "/x" (Fn_plain "A" (respond 200)) [])
       "/x" (Fn_plain "B" (respond 201)) [])
    (request "GET" "/x" 404 tt)
  = Finished (request "GET" "/x" 200 tt, ["A"]).
Proof.
  destruct (first_registration_wins unit (Router "" ∅) "GET" "/x"
              (Fn_plain "A" (respond 200)) []
              (Fn_plain "B" (respond 201)) []) as [_ Hfree].
  destruct Hfree as [_ Hrun]; [reflexivity|].
  apply (Hrun (request "GET" "/x" 404 tt)); reflexivity.
Defined.

(** C7: with prefix "/api" and GET "/users" registered, the context with
    path "/api/users" is not matched and the one with path "/users" is. *)
Lemma prefix_is_prepended_at_dispatch :
  make_routes (get (Router "/api" ∅) "/users" (Fn_plain "h" (respond 200)) [])
    (request "GET" "/api/users" 404 tt)
  = Finished (request "GET" "/api/users" 404 tt, []) /\
  make_routes (get (Router "/api" ∅) "/users" (Fn_plain "h" (respond 200)) [])
    (request "GET" "/users" 404 tt)
  = Finished (request "GET" "/users" 200 tt, ["h"]).
Proof. split; reflexivity. Qed.

(** C7 (amended) at the same router. *)
Lemma route_key_concatenation_witness :
  make_routes (get (Router "/api" ∅) "/users" (Fn_plain "h" (respond 200)) [])
    (request "GET" "/api/users" 404 tt)
  = Finished (request "GET" "/api/users" 404 tt, []).
Proof.
  destruct (route_key_concatenation unit) as (_ & _ & Hapi).
  destruct (Hapi (Fn_plain "h" (respond 200)) []
              (request "GET" "/api/users" 404 tt)) as [_ Hmiss];
    [reflexivity | reflexivity |].
  apply Hmiss. reflexivity.
Defined.

(** C8 at "/old" and "/new", for GET and for PUT. *)
Lemma redirect_sets_status_and_target_witness :
  (exists w',
     make_routes (redirect false (fun _ => "") (Router "" ∅) "/old" (Chars "/new") None)
       (request "GET" "/old" 404 tt)
       = Finished (w', [redirect_label]) /\
     ctx_status (ctx w') = 301%N /\ ctx_location (ctx w') = Some "/new"%string) /\
  (exists w',
     make_routes
       (redirect false (fun _ => "") (Router "" ∅) "/old" (Chars "/new") (Some 302%Z))
       (request "PUT" "/old" 404 tt)
       = Finished (w', [redirect_label]) /\
     ctx_status (ctx w') = 302%N /\ ctx_location (ctx w') = Some "/new"%string).
Proof.
  split.
  - apply (redirect_sets_status_and_target unit false (fun _ => "") (Router "" ∅)
             "/old" "/new" None "GET");
      [set_solver | reflexivity..].
  - apply (redirect_sets_status_and_target unit false (fun _ => "") (Router "" ∅)
             "/old" "/new" (Some 302%Z) "PUT");
      [set_solver | reflexivity..].
Defined.

(** C9 at a path nobody registered. *)
Lemma unmatched_route_is_noop_witness :
  make_routes (get (Router "" ∅) "/x" (Fn_plain "h" (respond 200)) [])
    (request "GET" "/y" 404 tt)
  = Finished (request "GET" "/y" 404 tt, []).
Proof. apply unmatched_route_is_noop; reflexivity. Defined.

(** C10: registered alone, a with-continuation member function given with
    a null instance pointer is called, on a default-constructed object;
    in a chain whose first handler calls its continuation twice, the
    handler behind the null instance pointer runs on the second call; and
    in last position the closure of a terminal-shape member function with
    a null instance pointer does not call the continuation. *)
Lemma null_instance_single_handler_invoked :
  make_routes
    (get (Router "" ∅) "/x"
       (Mem_next_bound "m" (fun _ => Do (respond 200) (Next Return)) nullptr) [])
    (request "GET" "/x" 404 tt)
  = Finished (request "GET" "/x" 200 tt, ["m"]) /\
  make_routes
    (get (Router "" ∅) "/x" (Fn_next "h1" (Next (Next Return)))
       [Mem_next_bound "m" (fun _ => Do (respond 500) (Next Return)) nullptr;
        Fn_plain "z" (respond 201)])
    (request "GET" "/x" 404 tt)
  = Finished (request "GET" "/x" 201 tt, ["h1"; "z"]) /\
  wrap_last (Mem_plain_bound "m" (fun _ => respond (env := unit) 200) nullptr) = Return.
Proof. repeat split; reflexivity. Qed.

(** C10 (amended) at chains around a null instance pointer, behind a
    with-continuation handler that continues once. *)
Lemma null_instance_in_chain_witness :
  make_routes
    (get (Router "" ∅) "/x" (Fn_next "a" (Do (respond 200) (Next Return)))
       [Mem_next_bound "m" (fun _ => Do (respond 500) (Next Return)) nullptr;
        Fn_plain "z" (respond 201)])
    (request "GET" "/x" 404 tt)
  = Finished (request "GET" "/x" 200 tt, ["a"]) /\
  make_routes
    (get (Router "" ∅) "/x" (Fn_next "a" (Do (respond 200) (Next Return)))
       [Mem_plain_bound "m" (fun _ => respond 500) nullptr;
        Fn_plain "z" (respond 201)])
    (request "GET" "/x" 404 tt)
  = Finished (request "GET" "/x" 201 tt, ["a"; "z"]) /\
  make_routes
    (get (Router "" ∅) "/x" (Fn_next "a" (Do (respond 200) (Next Return)))
       [Mem_plain_bound "m" (fun _ => respond 500) nullptr])
    (request "GET" "/x" 404 tt)
  = Finished (request "GET" "/x" 200 tt, ["a"]).
Proof.
  split; [|split].
  - destruct (null_instance_in_chain unit (Router "" ∅) "GET" "/x"
                (Fn_next "a" (Do (respond 200) (Next Return)))
                [Mem_next_bound "m" (fun _ => Do (respond 500) (Next Return)) nullptr;
                 Fn_plain "z" (respond 201)]
                (request "GET" "/x" 404 tt)) as [Hstop _];
      [discriminate | reflexivity | reflexivity | reflexivity | reflexivity |].
    unfold get.
    rewrite (Hstop "m" (fun _ => Do (respond 500) (Next Return))
               [Fn_next "a" (Do (respond 200) (Next Return))]
               [Fn_plain "z" (respond 201)]);
      [reflexivity | repeat constructor | reflexivity].
  - destruct (null_instance_in_chain unit (Router "" ∅) "GET" "/x"
                (Fn_next "a" (Do (respond 200) (Next Return)))
                [Mem_plain_bound "m" (fun _ => respond 500) nullptr;
                 Fn_plain "z" (respond 201)]
                (request "GET" "/x" 404 tt)) as (_ & Hpass & _);
      [discriminate | reflexivity | reflexivity | reflexivity | reflexivity |].
    unfold get.
    rewrite (Hpass "m" (fun _ => respond 500)
               [Fn_next "a" (Do (respond 200) (Next Return))]
               [Fn_plain "z" (respond 201)]
               (Fn_next "a" (Do (respond 200) (Next Return)))
               [Fn_plain "z" (respond 201)]);
      [reflexivity | repeat constructor | discriminate | reflexivity | reflexivity].
  - destruct (null_instance_in_chain unit (Router "" ∅) "GET" "/x"
                (Fn_next "a" (Do (respond 200) (Next Return)))
                [Mem_plain_bound "m" (fun _ => respond 500) nullptr]
                (request "GET" "/x" 404 tt)) as (_ & _ & Hlast);
      [discriminate | reflexivity | reflexivity | reflexivity | reflexivity |].
    unfold get.
    rewrite (Hlast "m" (fun _ => respond 500)
               [Fn_next "a" (Do (respond 200) (Next Return))]);
      [reflexivity | repeat constructor | reflexivity].
Defined.

(** * The further properties at concrete requests *)

(** Registering GET "/b" leaves the dispatch of GET "/a" as it was. *)
Lemma registration_frames_dispatch_witness :
  make_routes
    (get (get (Router "" ∅) "/a" (Fn_plain "a" (respond 200)) [])
       "/b" (Fn_plain "b" (respond 201)) [])
    (request "GET" "/a" 404 tt)
  = make_routes (get (Router "" ∅) "/a" (Fn_plain "a" (respond 200)) [])
      (request "GET" "/a" 404 tt).
Proof.
  apply (registration_frames_dispatch unit
           (get (Router "" ∅) "/a" (Fn_plain "a" (respond 200)) []) "GET" "/b").
  left. discriminate.
Defined.

(** A POST request does not reach a handler registered with [get]. *)
Lemma verbs_are_separate_witness :
  make_routes (get (Router "" ∅) "/x" (Fn_plain "h" (respond 200)) [])
    (request "POST" "/x" 404 tt)
  = Finished (request "POST" "/x" 404 tt, []).
Proof.
  apply (verbs_are_separate unit (Router "" ∅) "GET" "POST");
    [set_solver | set_solver | discriminate | reflexivity | reflexivity].
Defined.

(** After [all] with a captureless handler, a HEAD request runs the
    handler; where [get] came first, a GET request still runs the earlier
    one. *)
Lemma all_registers_five_verbs_witness :
  make_routes
    (all false (get (Router "" ∅) "/x" (Fn_plain "first" (respond 200)) [])
       "/x" (intact (Fn_plain "h" (respond 204))) [])
    (request "HEAD" "/x" 404 tt)
  = Finished (request "HEAD" "/x" 204 tt, ["h"]) /\
  make_routes
    (all false (get (Router "" ∅) "/x" (Fn_plain "first" (respond 200)) [])
       "/x" (intact (Fn_plain "h" (respond 204))) [])
    (request "GET" "/x" 404 tt)
  = Finished (request "GET" "/x" 200 tt, ["first"]).
Proof.
  split.
  - destruct (all_registers_five_verbs unit false
                (get (Router "" ∅) "/x" (Fn_plain "first" (respond 200)) [])
                "/x" (Fn_plain "h" (respond 204)) [] "HEAD"
                (request "HEAD" "/x" 404 tt)) as [Hrun _];
      [set_solver | reflexivity | reflexivity | reflexivity |].
    change (intact <$> @nil (handler_arg unit)) with (@nil (forwarded unit)) in Hrun.
    rewrite Hrun. reflexivity.
  - destruct (all_registers_five_verbs unit false
                (get (Router "" ∅) "/x" (Fn_plain "first" (respond 200)) [])
                "/x" (Fn_plain "h" (respond 204)) [] "GET"
                (request "GET" "/x" 404 tt)) as [Hrun _];
      [set_solver | reflexivity | reflexivity | reflexivity |].
    change (intact <$> @nil (handler_arg unit)) with (@nil (forwarded unit)) in Hrun.
    rewrite Hrun. reflexivity.
Defined.

(** A temporary closure that answers with a captured string, which its
    moves empty: DEL gets the string, POST, three moves later, the empty
    one. *)
Lemma all_forwards_moved_arguments_witness :
  make_routes
    (all false (Router "" ∅) "/x"
       (fun k => Fn_plain "h" (on_ctx (ctx_redirect (Nat.iter k (fun _ => "") "/to")))) [])
    (request "DEL" "/x" 404 tt)
  = Finished (World (Context "DEL" "/x" 404 (Some "/to"%string)) tt, ["h"]) /\
  make_routes
    (all false (Router "" ∅) "/x"
       (fun k => Fn_plain "h" (on_ctx (ctx_redirect (Nat.iter k (fun _ => "") "/to")))) [])
    (request "POST" "/x" 404 tt)
  = Finished (World (Context "POST" "/x" 404 (Some ""%string)) tt, ["h"]).
Proof.
  split.
  - rewrite (all_forwards_moved_arguments unit false (Router "" ∅) "/x" _ [] 0 "DEL");
      [reflexivity | reflexivity | intros m _; reflexivity
       | reflexivity | reflexivity | reflexivity].
  - rewrite (all_forwards_moved_arguments unit false (Router "" ∅) "/x" _ [] 3 "POST");
      [reflexivity | reflexivity | intros m _; reflexivity
       | reflexivity | reflexivity | reflexivity].
Defined.

(** [redirect] with a [std::string] destination that a move empties: a
    GET request is redirected to the empty string. *)
Lemma redirect_moves_string_destination_witness :
  exists w',
    make_routes (redirect false (fun _ => "") (Router "" ∅) "/old" (Str "/new") None)
      (request "GET" "/old" 404 tt)
    = Finished (w', [redirect_label]) /\
    ctx_location (ctx w') = Some ""%string.
Proof.
  apply (redirect_moves_string_destination unit false (fun _ => "") (Router "" ∅)
           "/old" "/new" None 1 "GET");
    [reflexivity | intros m _; reflexivity | reflexivity | reflexivity | reflexivity].
Defined.

(** Registered under prefix "/api" and dispatched after the prefix was set
    to the empty string, GET "/users" answers the path "/api/users". *)
Lemma prefix_is_baked_in_witness :
  make_routes
    (prefix "" (get (Router "/api" ∅) "/users" (Fn_plain "h" (respond 200)) []))
    (request "GET" "/api/users" 404 tt)
  = Finished (request "GET" "/api/users" 200 tt, ["h"]).
Proof.
  unfold get.
  rewrite (prefix_is_baked_in unit "/api" "" "GET" "/users"
             (Fn_plain "h" (respond 200)) [] (request "GET" "/api/users" 404 tt)
             eq_refl eq_refl).
  reflexivity.
Defined.

(** The second of two arguments gives the closure at position 1, built as
    for a last argument. *)
Lemma register_multiple_positions_witness :
  register_multiple [] (Fn_plain "a" (respond (env := unit) 200))
    [Mem_plain_bound "m" (fun _ => respond 201) nullptr] !! 1
  = Some Return.
Proof.
  destruct (register_multiple_positions unit [] (Fn_plain "a" (respond 200))
              [Mem_plain_bound "m" (fun _ => respond 201) nullptr])
    as (_ & _ & Hpos).
  apply (Hpos 1 (Mem_plain_bound "m" (fun _ => respond 201) nullptr)).
  reflexivity.
Defined.

(** Three terminal handlers, the second a member function on an object. *)
Lemma terminal_chain_runs_all_witness :
  make_routes
    (get (Router "" ∅) "/x" (Fn_plain "a" (respond 200))
       [Mem_plain_bound "m" (fun _ => respond 201) 7%N;
        Mem_plain "u" (fun _ => on_ctx (ctx_redirect "/y"))])
    (request "GET" "/x" 404 tt)
  = Finished
      (World (Context "GET" "/x" 201 (Some "/y"%string)) tt, ["a"; "m"; "u"]).
Proof.
  unfold get.
  rewrite (terminal_chain_runs_all unit (Router "" ∅) "GET" "/x");
    [reflexivity | discriminate | by repeat constructor
     | reflexivity | reflexivity | reflexivity | reflexivity].
Defined.

(** A guard in second position answers 403; the handler behind it does
    not run. *)
Lemma guard_stops_chain_witness :
  make_routes
    (get (Router "" ∅) "/x" (Fn_plain "log" (on_ctx (ctx_redirect "/seen")))
       [Fn_next "auth" (Do (respond 403) Return);
        Fn_plain "h" (respond 200)])
    (request "GET" "/x" 404 tt)
  = Finished (World (Context "GET" "/x" 403 (Some "/seen"%string)) tt, ["log"; "auth"]).
Proof.
  apply (guard_stops_chain unit (Router "" ∅) "GET" "/x" _ _
           [Fn_plain "log" (on_ctx (ctx_redirect "/seen"))]
           "auth" (Do (respond 403) Return) [Fn_plain "h" (respond 200)]);
    [discriminate | reflexivity | by repeat constructor
     | reflexivity | reflexivity | reflexivity | reflexivity | reflexivity].
Defined.

(** Four handlers, and one alone. *)
Lemma chain_of_any_length_runs_in_order_witness :
  (exists w',
     make_routes
       (get (Router "" ∅) "/x" (Fn_next "h1" (Next Return))
          (callables [("h2", Do (respond 200) (Next Return)); ("h3", Next Return);
                      ("h4", Next (Do (respond 201) Return))]))
       (request "GET" "/x" 404 tt)
     = Finished (w', ["h1"; "h2"; "h3"; "h4"])) /\
  (exists w',
     make_routes (get (Router "" ∅) "/x" (Fn_next "h1" (Next Return)) (callables []))
       (request "GET" "/x" 404 tt)
     = Finished (w', ["h1"])).
Proof.
  split.
  - apply (chain_of_any_length_runs_in_order unit (Router "" ∅) "GET" "/x"
             ("h1", Next Return)
             [("h2", Do (respond 200) (Next Return)); ("h3", Next Return);
              ("h4", Next (Do (respond 201) Return))]);
      [repeat constructor | reflexivity | reflexivity | reflexivity | reflexivity].
  - apply (chain_of_any_length_runs_in_order unit (Router "" ∅) "GET" "/x"
             ("h1", Next Return) []);
      [repeat constructor | reflexivity | reflexivity | reflexivity | reflexivity].
Defined.

(** A chain of mixed shapes whose handlers continue at most once. *)
Lemma well_behaved_chain_is_nested_witness :
  exists w' t,
    make_routes
      (get (Router "" ∅) "/x" (Fn_next "a" (Do (respond 200) (Next Return)))
         [Fn_plain "b" (respond 201);
          Mem_next_bound "m" (fun _ => Next Return) nullptr;
          Fn_plain "c" (respond 202)])
      (request "GET" "/x" 404 tt)
    = Finished (w', t) /\
    leave
      (run_nested
         (register_multiple [] (Fn_next "a" (Do (respond 200) (Next Return)))
            [Fn_plain "b" (respond 201);
             Mem_next_bound "m" (fun _ => Next Return) nullptr;
             Fn_plain "c" (respond 202)])
         (Frame (request "GET" "/x" 404 tt) [] 0))
    = Finished (w', t).
Proof.
  apply (well_behaved_chain_is_nested unit (Router "" ∅) "GET" "/x");
    [discriminate | | reflexivity | reflexivity | reflexivity | reflexivity].
  repeat constructor.
Defined.

(** The first of two handlers calls its continuation twice. *)
Lemma second_call_is_out_of_range_witness :
  make_routes
    (get (Router "" ∅) "/x" (Fn_next "h1" (Next (Next Return)))
       (callables [("h2", Next Return)]))
    (request "GET" "/x" 404 tt)
  = OutOfRange.
Proof.
  apply (second_call_is_out_of_range unit (Router "" ∅) "GET" "/x" "h1"
           (Next (Next Return)) ("h2", Next Return) []);
    [repeat constructor | repeat constructor
     | reflexivity | reflexivity | reflexivity | reflexivity].
Defined.
